(** * jsbsim-wasm bindings generator: a shallow embedding and its properties

    The generator scripts under [scripts/bindings-generator/] are pure
    string and tree manipulation apart from the compiler invocation.  This
    development embeds the functions the documented properties rest on:

    - JavaScript strings are sequences of UTF-16 code units ([list N]);
      the regular expressions of the scripts are given as matchers driven
      by one global-replace engine ([replaceAll]);
    - [Set]s and [Map]s are stdpp's [gset] and [gmap];
    - the clang AST is a record with a list of children;
    - [throw] is an error result; the external compiler and [JSON.parse]
      are parameters of the sections that use them. *)

From Stdlib Require Import ZArith NArith List Lia Bool Ascii String.
From Stdlib Require Import DecimalString DecimalNat Sorted Permutation.
From stdpp Require Import base option list gmap.

Set Warnings "-register-all,-clear-no-such-hyp".
Local Open Scope N_scope.
Local Open Scope nat_scope.

(* ===================================================================== *)
(** * JavaScript strings *)
(* ===================================================================== *)

Module JsString.

(** A string is its sequence of UTF-16 code units. *)
Definition jsstring : Type := list N.

(** String literals of the scripts are ASCII. *)
Definition js (s : string) : jsstring := map N_of_ascii (list_ascii_of_string s).

Definition eqs (a b : jsstring) : bool := bool_decide (a = b).

(** The double quote, and a text between double quotes. *)
Definition DQUOTE : jsstring := [34%N].
Definition quoted (s : jsstring) : jsstring := DQUOTE ++ s ++ DQUOTE.

(** [\s] of ECMAScript regular expressions, which is also the set that
    [String.prototype.trim] strips: WhiteSpace and LineTerminator. *)
Definition is_space (c : N) : bool :=
  ((9 <=? c) && (c <=? 13) || (c =? 32) || (c =? 160) || (c =? 5760)
   || (8192 <=? c) && (c <=? 8202) || (c =? 8232) || (c =? 8233)
   || (c =? 8239) || (c =? 8287) || (c =? 12288) || (c =? 65279))%N.

Definition is_upper (c : N) : bool := ((65 <=? c) && (c <=? 90))%N.
Definition is_lower (c : N) : bool := ((97 <=? c) && (c <=? 122))%N.
Definition is_digit (c : N) : bool := ((48 <=? c) && (c <=? 57))%N.
Definition is_alpha (c : N) : bool := is_upper c || is_lower c.

(** [\w] = [[A-Za-z0-9_]]. *)
Definition is_word (c : N) : bool := is_alpha c || is_digit c || (c =? 95)%N.

(** [toLowerCase] / [toUpperCase]; identifiers of the C++ header are ASCII,
    other code units are left as they are. *)
Definition toLowerChar (c : N) : N := if is_upper c then (c + 32)%N else c.
Definition toUpperChar (c : N) : N := if is_lower c then (c - 32)%N else c.
Definition toLowerCase (s : jsstring) : jsstring := map toLowerChar s.
Definition toUpperCase (s : jsstring) : jsstring := map toUpperChar s.

Fixpoint startsWith (p s : jsstring) : bool :=
  match p, s with
  | [], _ => true
  | a :: p', b :: s' => (a =? b)%N && startsWith p' s'
  | _ :: _, [] => false
  end.

(** [s.slice(n)] and [s.slice(0, n)] for [0 <= n]. *)
Definition sliceFrom (n : nat) (s : jsstring) : jsstring := drop n s.
Definition sliceTo (n : nat) (s : jsstring) : jsstring := take n s.

(** [s.indexOf(c)] for a one-character needle; [None] is [-1]. *)
Fixpoint indexOfChar (c : N) (s : jsstring) : option nat :=
  match s with
  | [] => None
  | x :: s' => if (x =? c)%N then Some 0 else S <$> indexOfChar c s'
  end.

(** [s.includes(p)]. *)
Fixpoint includes (p s : jsstring) : bool :=
  startsWith p s || match s with [] => false | _ :: s' => includes p s' end.

(** Length of the maximal run of characters satisfying [f] at the head. *)
Fixpoint runLength (f : N -> bool) (s : jsstring) : nat :=
  match s with
  | c :: s' => if f c then S (runLength f s') else 0
  | [] => 0
  end.

Definition spaceRun : jsstring -> nat := runLength is_space.

Definition trimStart (s : jsstring) : jsstring := drop (spaceRun s) s.
Definition trimEnd (s : jsstring) : jsstring := rev (trimStart (rev s)).
Definition trim (s : jsstring) : jsstring := trimEnd (trimStart s).

(** [parts.join(sep)]. *)
Fixpoint join (sep : jsstring) (parts : list jsstring) : jsstring :=
  match parts with
  | [] => []
  | [p] => p
  | p :: rest => p ++ sep ++ join sep rest
  end.

(** Template-literal rendering of a non-negative integer below 10^21. *)
Definition showNat (n : nat) : jsstring :=
  js (NilEmpty.string_of_uint (Nat.to_uint n)).

(** ** Regular expressions with the [g] flag

    A matcher is the regular expression tried at one position: it sees the
    character before the position (for [\b]) and the rest of the input and
    answers with the length of the match and the text replacing it.  None
    of the expressions below matches the empty string. *)
Definition matcher : Type := option N -> jsstring -> option (nat * jsstring).

(** [s.replace(/re/g, ...)]: matches are searched left to right, each
    search starting where the previous match ended; unmatched characters
    are copied.  [skip] counts the characters of the current match still to
    be passed over. *)
Fixpoint replaceAll_from (m : matcher) (prev : option N) (skip : nat)
    (s : jsstring) {struct s} : jsstring :=
  match s with
  | [] => []
  | c :: s' =>
      match skip with
      | S k => replaceAll_from m (Some c) k s'
      | O =>
          match m prev s with
          | Some (S k, rep) => rep ++ replaceAll_from m (Some c) k s'
          | _ => c :: replaceAll_from m (Some c) O s'
          end
      end
  end.

Definition replaceAll (m : matcher) (s : jsstring) : jsstring :=
  replaceAll_from m None 0 s.

(** [s.match(/re/g) ?? []]: the matched substrings, in order. *)
Fixpoint matchAll_from (m : matcher) (prev : option N) (skip : nat)
    (s : jsstring) {struct s} : list jsstring :=
  match s with
  | [] => []
  | c :: s' =>
      match skip with
      | S k => matchAll_from m (Some c) k s'
      | O =>
          match m prev s with
          | Some (S k, _) => take (S k) s :: matchAll_from m (Some c) k s'
          | _ => matchAll_from m (Some c) O s'
          end
      end
  end.

Definition matchAll (m : matcher) (s : jsstring) : list jsstring :=
  matchAll_from m None 0 s.

Definition is_word_opt (c : option N) : bool :=
  match c with Some x => is_word x | None => false end.

(** [\b] between [prev] and the head of [s]. *)
Definition boundary (prev : option N) (s : jsstring) : bool :=
  xorb (is_word_opt prev) (is_word_opt (head s)).

Definition lastOr (prev : option N) (s : jsstring) : option N :=
  match last s with Some c => Some c | None => prev end.

(** [\bLIT\b] at this position; [lit] is a nonempty word. *)
Definition wordLit (lit : jsstring) (prev : option N) (s : jsstring) : bool :=
  boundary prev s && startsWith lit s
  && boundary (lastOr prev lit) (drop (length lit) s).

End JsString.
Export JsString.

(* ===================================================================== *)
(** * type-utils.mjs *)
(* ===================================================================== *)

Module TypeUtils.

(** [/\s+/g] *)
Definition re_spaces (rep : jsstring) : matcher := fun _ s =>
  match spaceRun s with
  | O => None
  | n => Some (n, rep)
  end.

(** The class [[*&<>,]]. *)
Definition is_tpunct (c : N) : bool :=
  ((c =? 42) || (c =? 38) || (c =? 60) || (c =? 62) || (c =? 44))%N.

(** [/\s*([*&<>,])\s*/g] replaced by ["$1"].  The greedy [\s*] takes the
    whole run of spaces; giving characters back cannot help, since the
    character after a shorter run is a space and not in the class. *)
Definition re_tpunct : matcher := fun _ s =>
  let n := spaceRun s in
  match drop n s with
  | p :: r => if is_tpunct p then Some (n + 1 + spaceRun r, [p]) else None
  | [] => None
  end.

(** [/\bconst\b\s*/g] replaced by ["const "]. *)
Definition re_const : matcher := fun prev s =>
  if wordLit (js "const") prev s
  then Some (5 + spaceRun (drop 5 s), js "const ")
  else None.

Definition normalizeType (type : jsstring) : jsstring :=
  trim (replaceAll re_const (replaceAll re_tpunct (replaceAll (re_spaces (js " ")) type))).

(** [/\b(const|volatile)\b/g] replaced by the empty string. *)
Definition re_cv : matcher := fun prev s =>
  if wordLit (js "const") prev s then Some (5, [])
  else if wordLit (js "volatile") prev s then Some (8, [])
  else None.

(** [/[&*]/g] replaced by the empty string. *)
Definition re_refptr : matcher := fun _ s =>
  match s with
  | c :: _ => if ((c =? 38) || (c =? 42))%N then Some (1, []) else None
  | [] => None
  end.

Definition stripConstVolatile (type : jsstring) : jsstring :=
  trim (replaceAll (re_spaces (js " ")) (replaceAll re_cv type)).

Definition isBoolType (type : jsstring) : bool :=
  eqs (trim (replaceAll re_refptr (stripConstVolatile type))) (js "bool").

Definition isStringType (type : jsstring) : bool :=
  eqs (trim (replaceAll re_refptr (stripConstVolatile type))) (js "std::string").

Definition isSGPathType (type : jsstring) : bool :=
  eqs (trim (replaceAll re_refptr (stripConstVolatile type))) (js "SGPath").

Definition isVectorOfStringType (type : jsstring) : bool :=
  eqs (trim (replaceAll (re_spaces []) (replaceAll re_refptr (stripConstVolatile type))))
      (js "std::vector<std::string>").

Definition NUMERIC_TYPES : list jsstring :=
  map js ["char"; "signed char"; "unsigned char"; "short"; "unsigned short";
          "int"; "unsigned int"; "long"; "unsigned long"; "long long";
          "unsigned long long"; "float"; "double"; "long double"; "size_t"]%string.

Definition isNumericType (type : jsstring) : bool :=
  let normalized :=
    trim (replaceAll (re_spaces (js " ")) (replaceAll re_refptr (stripConstVolatile type))) in
  bool_decide (normalized ∈ NUMERIC_TYPES).

End TypeUtils.
Export TypeUtils.

(* ===================================================================== *)
(** * The data model shared by the generator *)
(* ===================================================================== *)

Module Model.

(** [null] in a string-valued position is [None]. *)
Record Param : Type := mkParam {
  p_name : jsstring;
  p_type : jsstring;
  p_defaultValue : option jsstring }.

Record ParamDoc : Type := mkParamDoc { pd_name : jsstring; pd_text : jsstring }.

Record JsDoc : Type := mkJsDoc {
  descriptionLines : list jsstring;
  paramDocs : list ParamDoc;
  returns : jsstring }.

Record Method : Type := mkMethod {
  m_name : jsstring;
  m_returnType : jsstring;
  m_params : list Param;
  m_jsDoc : JsDoc }.

Record EnumMember : Type := mkEnumMember { em_name : jsstring; em_value : Z }.

Record EnumDef : Type := mkEnumDef {
  tsName : jsstring;
  cppSimpleName : jsstring;
  cppQualifiedName : jsstring;
  members : list EnumMember }.

(** The part of [buildTypeMetadata]'s result that the renderers read. *)
Record TypeMetadata : Type := mkTypeMetadata {
  enumLookup : gmap jsstring EnumDef;
  paramTypeOverrides : gmap jsstring (gmap nat jsstring);
  returnTypeOverrides : gmap jsstring jsstring }.

(** A function that either returns or throws an [Error] with a message. *)
Inductive result (A : Type) : Type :=
| Ok (a : A)
| Throw (message : jsstring).
Arguments Ok {A} a.
Arguments Throw {A} message.

(** [array.sort(cmp)]: the sort of ECMAScript is stable, so for a
    comparator that is a total preorder its result is the one of this
    insertion sort. *)
Fixpoint insertSorted {A} (cmp : A -> A -> Z) (x : A) (l : list A) : list A :=
  match l with
  | [] => [x]
  | y :: l' => if (cmp y x <=? 0)%Z then y :: insertSorted cmp x l' else x :: y :: l'
  end.

Definition sortWith {A} (cmp : A -> A -> Z) (l : list A) : list A :=
  fold_left (fun acc x => insertSorted cmp x acc) l [].

(** [new Set(...).add(x)] keeps insertion order and ignores a second add. *)
Definition addUnique (x : jsstring) (l : list jsstring) : list jsstring :=
  if bool_decide (x ∈ l) then l else l ++ [x].

Definition CLASS_NAME : jsstring := js "FGFDMExec".

End Model.
Export Model.

Module TypeUtilsEnum.

(** [/\benum\s+/g] replaced by the empty string. *)
Definition re_enum : matcher := fun prev s =>
  if wordLit (js "enum") prev s && (1 <=? spaceRun (drop 4 s))
  then Some (4 + spaceRun (drop 4 s), [])
  else None.

Definition normalizeEnumLookupName (typeName : jsstring) : jsstring :=
  trim (replaceAll (re_spaces [])
         (replaceAll re_refptr (replaceAll re_enum (stripConstVolatile typeName)))).

(** [s.split("::")]; [cur] is the field read so far. *)
Fixpoint splitColons_from (cur : jsstring) (skip : nat) (s : jsstring) : list jsstring :=
  match s with
  | [] => [cur]
  | c :: s' =>
      match skip with
      | S k => splitColons_from cur k s'
      | O =>
          if startsWith (js "::") s
          then cur :: splitColons_from [] 1 s'
          else splitColons_from (cur ++ [c]) 0 s'
      end
  end.

Definition splitColons (s : jsstring) : list jsstring := splitColons_from [] 0 s.

Definition enumLookupVariants (typeName : jsstring) : list jsstring :=
  let base := normalizeEnumLookupName typeName in
  match base with
  | [] => []
  | _ =>
      let v0 := [base] in
      let v1 := if startsWith (js "JSBSim::") base
                then addUnique (sliceFrom 8 base) v0
                else addUnique (js "JSBSim::" ++ base) v0 in
      let v2 := if startsWith (CLASS_NAME ++ js "::") base
                then addUnique (js "JSBSim::" ++ base) v1 else v1 in
      let v3 := if startsWith (js "JSBSim::" ++ CLASS_NAME ++ js "::") base
                then addUnique (sliceFrom 8 base) v2 else v2 in
      if includes (js "::") base
      then addUnique (default [] (last (splitColons base))) v3
      else v3
  end.

Fixpoint firstResolved (lookup : gmap jsstring EnumDef) (variants : list jsstring)
    : option EnumDef :=
  match variants with
  | [] => None
  | v :: rest =>
      match lookup !! v with
      | Some enumInfo => Some enumInfo
      | None => firstResolved lookup rest
      end
  end.

Definition resolveEnumInfo (typeName : jsstring) (lookup : gmap jsstring EnumDef)
    : option EnumDef :=
  firstResolved lookup (enumLookupVariants typeName).

(** [toTsType(type, { enumLookup, isReturn })] of type-utils.mjs. *)
Definition toTsType (type : jsstring) (lookup : gmap jsstring EnumDef) (isReturn : bool)
    : jsstring :=
  let normalized := normalizeType type in
  match resolveEnumInfo normalized lookup with
  | Some enumInfo => tsName enumInfo
  | None =>
      if eqs normalized (js "void") then js "void"
      else if isBoolType normalized then js "boolean"
      else if isNumericType normalized then js "number"
      else if isStringType normalized || isSGPathType normalized then js "string"
      else if isReturn && isVectorOfStringType normalized then js "string[]"
      else js "number"
  end.

End TypeUtilsEnum.
Export TypeUtilsEnum.

(* ===================================================================== *)
(** * signature.mjs *)
(* ===================================================================== *)

Module Signature.

Definition createMethodArityKey (methodName : jsstring) (paramCount : nat) : jsstring :=
  methodName ++ js "#" ++ showNat paramCount.

Definition createMethodKey (methodName : jsstring) (paramTypes : list jsstring) : jsstring :=
  let signature := join (js ",") (map normalizeType paramTypes) in
  methodName ++ js "(" ++ signature ++ js ")".

Definition methodKey (method : Method) : jsstring :=
  createMethodKey (m_name method) (map p_type (m_params method)).

Definition methodArityKey (method : Method) : jsstring :=
  createMethodArityKey (m_name method) (length (m_params method)).

End Signature.
Export Signature.

(* ===================================================================== *)
(** * render-jsbsim-api.mjs: the ergonomic wrapper class *)
(* ===================================================================== *)

Module RenderJsbsimApi.

Definition BUILTIN_TS_TYPE_NAMES : list jsstring :=
  map js ["string"; "number"; "boolean"; "void"; "unknown"; "any"; "never";
          "undefined"; "null"; "object"; "bigint"; "symbol"; "Array";
          "ReadonlyArray"]%string.

Definition DEFAULT_JSBSIM_API_IGNORE_METHODS : list jsstring :=
  map js ["SetOutputFileName"; "GetOutputFileName"]%string.

(** [/\*\//g] replaced by ["*\\/"]. *)
Definition re_commentEnd : matcher := fun _ s =>
  if startsWith (js "*/") s then Some (2, js "*\/") else None.

Definition escapeJsDoc (value : jsstring) : jsstring := replaceAll re_commentEnd value.

Definition renderJsDocLines (method : Method) : list jsstring :=
  let doc := m_jsDoc method in
  match descriptionLines doc, paramDocs doc, returns doc with
  | [], [], [] => []
  | _, _, _ =>
      [js "  /**"]
      ++ map (fun line => js "   * " ++ escapeJsDoc line) (descriptionLines doc)
      ++ map (fun paramDoc => js "   * @param " ++ pd_name paramDoc ++ js " "
                                ++ escapeJsDoc (pd_text paramDoc)) (paramDocs doc)
      ++ match returns doc with
         | [] => []
         | r => [js "   * @returns " ++ escapeJsDoc r]
         end
      ++ [js "   */"]
  end.

Definition splitFirstTokenForSetGet (tokens : list jsstring) : list jsstring :=
  match tokens with
  | [] => tokens
  | first :: rest =>
      let firstLower := toLowerCase first in
      if startsWith (js "set") firstLower && (3 <? length firstLower)
      then js "set" :: sliceFrom 3 firstLower :: map toLowerCase rest
      else if startsWith (js "get") firstLower && (3 <? length firstLower)
      then js "get" :: sliceFrom 3 firstLower :: map toLowerCase rest
      else firstLower :: map toLowerCase rest
  end.

(** [name.split(/_+/)]; [cur] is the field read so far and [inSep] tells
    that the previous character belonged to a separator. *)
Fixpoint splitUnderscores_from (inSep : bool) (cur : jsstring) (s : jsstring)
    : list jsstring :=
  match s with
  | [] => [cur]
  | c :: s' =>
      if (c =? 95)%N
      then if inSep then splitUnderscores_from true [] s'
           else cur :: splitUnderscores_from true [] s'
      else splitUnderscores_from false (cur ++ [c]) s'
  end.

Definition splitUnderscores (s : jsstring) : list jsstring :=
  splitUnderscores_from false [] s.

Definition nonEmpty (s : jsstring) : bool :=
  match s with [] => false | _ => true end.

(** [/[A-Z]{2,}s(?=$|[A-Z_])|[A-Z]+(?![a-z])|[A-Z][a-z]*|[a-z]+|[0-9]+/g],
    the alternatives tried in order, with [u] the length of the run of
    capitals at this position.
    - First alternative: the run must be taken whole, because the character
      after a shorter run is a capital and not [s].
    - Second alternative: the whole run when no lower-case letter follows
      it; otherwise the run without its last capital, when that is not
      empty.
    - Third alternative: reached with [u = 1] and a lower-case letter next. *)
Definition re_nameToken : matcher := fun _ s =>
  let u := runLength is_upper s in
  let l := runLength is_lower s in
  let d := runLength is_digit s in
  let lowerNext := match drop u s with c :: _ => is_lower c | [] => false end in
  if (2 <=? u) && startsWith (js "s") (drop u s)
     && match drop (u + 1) s with
        | [] => true
        | c :: _ => is_upper c || (c =? 95)%N
        end
  then Some (u + 1, [])
  else if (1 <=? u) && negb lowerNext then Some (u, [])
  else if 2 <=? u then Some (u - 1, [])
  else if 1 <=? u then Some (1 + runLength is_lower (drop 1 s), [])
  else if 1 <=? l then Some (l, [])
  else if 1 <=? d then Some (d, [])
  else None.

Definition splitNameIntoWords (name : jsstring) : list jsstring :=
  let parts := filter (fun p => nonEmpty p = true) (splitUnderscores name) in
  let tokens :=
    flat_map (fun part =>
                match matchAll re_nameToken part with
                | [] => [part]
                | partTokens => partTokens
                end) parts in
  filter (fun w => nonEmpty w = true) (splitFirstTokenForSetGet tokens).

Definition capitalize (word : jsstring) : jsstring :=
  match word with
  | [] => []
  | c :: _ => toUpperCase [c] ++ sliceFrom 1 word
  end.

Definition toCamelCaseName (name : jsstring) : jsstring :=
  match splitNameIntoWords name with
  | [] =>
      match name with
      | c :: _ => toLowerCase [c] ++ sliceFrom 1 name
      | [] => name
      end
  | head :: tail => head ++ join [] (map capitalize tail)
  end.

(** A parameter of the wrapper: its TypeScript type is already resolved. *)
Record ApiParam : Type := mkApiParam {
  ap_name : jsstring;
  ap_typeName : jsstring;
  ap_defaultValue : option jsstring }.

Record Overload : Type := mkOverload {
  ov_method : Method;
  ov_params : list ApiParam;
  ov_returnType : jsstring }.

Record Group : Type := mkGroup {
  camelName : jsstring;
  sourceMethodName : jsstring;
  overloads : list Overload }.

Definition renderParam (optionalForDefault includeDefaultInitializer : bool)
    (param : ApiParam) : jsstring :=
  match ap_defaultValue param with
  | Some d =>
      if includeDefaultInitializer
      then ap_name param ++ js ": " ++ ap_typeName param ++ js " = " ++ d
      else if optionalForDefault
      then ap_name param ++ js "?: " ++ ap_typeName param
      else ap_name param ++ js ": " ++ ap_typeName param
  | None => ap_name param ++ js ": " ++ ap_typeName param
  end.

Definition renderParams (optionalForDefault includeDefaultInitializer : bool)
    (params : list ApiParam) : jsstring :=
  join (js ", ") (map (renderParam optionalForDefault includeDefaultInitializer) params).

Definition renderCallArgs (params : list ApiParam) : jsstring :=
  join (js ", ") (map ap_name params).

(** [/[A-Za-z_][A-Za-z0-9_]*/g] *)
Definition re_identifier : matcher := fun _ s =>
  match s with
  | c :: s' =>
      if is_alpha c || (c =? 95)%N then Some (1 + runLength is_word s', []) else None
  | [] => None
  end.

Definition collectTypeIdentifiers (typeName : jsstring) : list jsstring :=
  filter (fun identifier => identifier ∉ BUILTIN_TS_TYPE_NAMES)
         (matchAll re_identifier typeName).

Definition pushOverload (overload : Overload) (group : Group) : Group :=
  {| camelName := camelName group;
     sourceMethodName := sourceMethodName group;
     overloads := overloads group ++ [overload] |}.

Definition makeOverload (typeMetadata : TypeMetadata) (method : Method) : Overload :=
  let signatureKey := methodKey method in
  let methodParamOverrides := paramTypeOverrides typeMetadata !! signatureKey in
  let params :=
    imap (fun index param =>
            {| ap_name := p_name param;
               ap_typeName :=
                 default (toTsType (p_type param) (enumLookup typeMetadata) false)
                         (methodParamOverrides ≫= (fun o => o !! index));
               ap_defaultValue := p_defaultValue param |})
         (m_params method) in
  let returnType :=
    default (toTsType (m_returnType method) (enumLookup typeMetadata) true)
            (returnTypeOverrides typeMetadata !! signatureKey) in
  {| ov_method := method; ov_params := params; ov_returnType := returnType |}.

Definition collisionMessage (a b camel : jsstring) : jsstring :=
  js "Cannot generate JSBSimApi: " ++ quoted a ++ js " and " ++ quoted b
  ++ js " both map to " ++ quoted camel ++ js ".".

(** The loop of [buildApiMethods].  [groupedMethods] is the array of group
    objects; [groupedByCamelName] maps a camel name to the position of its
    group in that array, which stands for the reference the [Map] holds
    to the same object (every position stored is one of the array). *)
Fixpoint buildApiMethods_loop (typeMetadata : TypeMetadata)
    (ignoreMethodsSet : gset jsstring) (methods : list Method)
    (groupedMethods : list Group) (groupedByCamelName : gmap jsstring nat)
    : result (list Group) :=
  match methods with
  | [] => Ok groupedMethods
  | method :: rest =>
      if bool_decide (m_name method ∈ ignoreMethodsSet)
      then buildApiMethods_loop typeMetadata ignoreMethodsSet rest
             groupedMethods groupedByCamelName
      else
        let overload := makeOverload typeMetadata method in
        let camel := toCamelCaseName (m_name method) in
        match groupedByCamelName !! camel ≫= (fun ref => (ref,.) <$> groupedMethods !! ref) with
        | Some (ref, existingGroup) =>
            if negb (eqs (sourceMethodName existingGroup) (m_name method))
            then Throw (collisionMessage (sourceMethodName existingGroup)
                                         (m_name method) camel)
            else buildApiMethods_loop typeMetadata ignoreMethodsSet rest
                   (<[ref := pushOverload overload existingGroup]> groupedMethods)
                   groupedByCamelName
        | None =>
            let newGroup :=
              {| camelName := camel;
                 sourceMethodName := m_name method;
                 overloads := [overload] |} in
            buildApiMethods_loop typeMetadata ignoreMethodsSet rest
              (groupedMethods ++ [newGroup])
              (<[camel := length groupedMethods]> groupedByCamelName)
        end
  end.

Definition buildApiMethods (methods : list Method) (typeMetadata : TypeMetadata)
    (ignoreMethodsSet : gset jsstring) : result (list Group) :=
  buildApiMethods_loop typeMetadata ignoreMethodsSet methods [] ∅.

(** The loop of [getRequiredParamCount], running from the last parameter. *)
Fixpoint trailingDefaultCount (reversed : list ApiParam) : nat :=
  match reversed with
  | [] => 0
  | param :: before =>
      match ap_defaultValue param with
      | None => 0
      | Some _ => S (trailingDefaultCount before)
      end
  end.

Definition getRequiredParamCount (params : list ApiParam) : nat :=
  length params - trailingDefaultCount (rev params).

Record Range : Type := mkRange { minArgs : nat; maxArgs : nat }.

Record FillCase : Type := mkFillCase {
  providedArgCount : nat;
  defaultValues : list (option jsstring) }.

Definition overloadRange (overload : Overload) : Range :=
  {| minArgs := getRequiredParamCount (ov_params overload);
     maxArgs := length (ov_params overload) |}.

Definition accepts (providedArgCount : nat) (range : Range) : bool :=
  (minArgs range <=? providedArgCount) && (providedArgCount <=? maxArgs range).

Definition acceptorCount (overloadRanges : list Range) (providedArgCount : nat) : nat :=
  length (filter (fun range => accepts providedArgCount range = true) overloadRanges).

Definition hasNoDefault (param : ApiParam) : bool :=
  match ap_defaultValue param with None => true | Some _ => false end.

(** The body of the inner loop for one value of [providedArgCount]. *)
Definition fillCaseAt (overloadRanges : list Range) (overload : Overload)
    (providedArgCount : nat) : list FillCase :=
  if negb (acceptorCount overloadRanges providedArgCount =? 1) then []
  else
    let missingParams := drop providedArgCount (ov_params overload) in
    if existsb hasNoDefault missingParams then []
    else [ {| providedArgCount := providedArgCount;
              defaultValues := map ap_defaultValue missingParams |} ].

(** The inner loop: [providedArgCount] runs from [minArgs] up to, and
    excluding, [maxArgs]. *)
Definition fillCasesOfOverload (overloadRanges : list Range) (overload : Overload)
    : list FillCase :=
  let range := overloadRange overload in
  flat_map (fillCaseAt overloadRanges overload)
           (seq (minArgs range) (maxArgs range - minArgs range)).

Definition compareProvided (a b : FillCase) : Z :=
  (Z.of_nat (providedArgCount a) - Z.of_nat (providedArgCount b))%Z.

Definition buildDefaultFillCasesForOverloads (overloads : list Overload) : list FillCase :=
  let overloadRanges := map overloadRange overloads in
  sortWith compareProvided
    (flat_map (fillCasesOfOverload overloadRanges) overloads).

(** What the generated [switch (normalizedArgs.length)] does to the
    argument list at call time: the first [case] with the provided count
    appends its defaults, [default:] leaves the arguments as they are. *)
Fixpoint applyFillCases {A} (fillCases : list FillCase) (ofDefault : option jsstring -> A)
    (args : list A) : list A :=
  match fillCases with
  | [] => args
  | fillCase :: rest =>
      if providedArgCount fillCase =? length args
      then args ++ map ofDefault (defaultValues fillCase)
      else applyFillCases rest ofDefault args
  end.

Definition dedup_strings (l : list jsstring) : list jsstring :=
  fold_left (fun acc x => addUnique x acc) l [].

Section Render.

(** [a.localeCompare(b)] depends on the collation of the host; it is a
    parameter of the renderer. *)
Variable localeCompare : jsstring -> jsstring -> Z.

Definition collectTypeImports (groupedMethods : list Group) : list jsstring :=
  let imports :=
    fold_left
      (fun imports group =>
         fold_left
           (fun imports overload =>
              let imports :=
                fold_left
                  (fun imports param =>
                     fold_left (fun imports identifier => addUnique identifier imports)
                               (collectTypeIdentifiers (ap_typeName param)) imports)
                  (ov_params overload) imports in
              fold_left (fun imports identifier => addUnique identifier imports)
                        (collectTypeIdentifiers (ov_returnType overload)) imports)
           (overloads group) imports)
      groupedMethods [js "FGFDMExecApi"] in
  sortWith localeCompare imports.

Definition renderFillCase (fillCase : FillCase) : list jsstring :=
  [ js "      case " ++ showNat (providedArgCount fillCase) ++ js ":";
    js "        normalizedArgs.push("
      ++ join (js ", ") (map (default []) (defaultValues fillCase)) ++ js ");";
    js "        break;" ].

Definition renderSingle (group : Group) (overload : Overload) : list jsstring :=
  let params := renderParams false true (ov_params overload) in
  let callArgs := renderCallArgs (ov_params overload) in
  renderJsDocLines (ov_method overload)
  ++ [js "  " ++ camelName group ++ js "(" ++ params ++ js "): "
        ++ ov_returnType overload ++ js " {"]
  ++ [if eqs (ov_returnType overload) (js "void")
      then js "    this.exec." ++ sourceMethodName group ++ js "(" ++ callArgs ++ js ");"
      else js "    return this.exec." ++ sourceMethodName group ++ js "(" ++ callArgs
             ++ js ");"]
  ++ [js "  }"; []].

Definition renderOverloaded (group : Group) : list jsstring :=
  let returnTypes := dedup_strings (map ov_returnType (overloads group)) in
  let returnType := join (js " | ") returnTypes in
  let defaultFillCases := buildDefaultFillCasesForOverloads (overloads group) in
  let argsName :=
    match defaultFillCases with [] => js "args" | _ => js "normalizedArgs" end in
  flat_map (fun overload =>
              renderJsDocLines (ov_method overload)
              ++ [js "  " ++ camelName group ++ js "("
                    ++ renderParams true false (ov_params overload) ++ js "): "
                    ++ ov_returnType overload ++ js ";"])
           (overloads group)
  ++ [js "  " ++ camelName group ++ js "(...args: unknown[]): " ++ returnType ++ js " {"]
  ++ match defaultFillCases with
     | [] => []
     | _ =>
         [js "    const normalizedArgs = [...args] as unknown[];";
          js "    switch (normalizedArgs.length) {"]
         ++ flat_map renderFillCase defaultFillCases
         ++ [js "      default:"; js "        break;"; js "    }"]
     end
  ++ [if eqs returnType (js "void")
      then js "    (this.exec." ++ sourceMethodName group
             ++ js " as (...innerArgs: unknown[]) => void)(..." ++ argsName ++ js ");"
      else js "    return (this.exec." ++ sourceMethodName group
             ++ js " as (...innerArgs: unknown[]) => " ++ returnType ++ js ")(..."
             ++ argsName ++ js ");"]
  ++ [js "  }"; []].

Definition renderGroup (group : Group) : list jsstring :=
  match overloads group with
  | [overload] => renderSingle group overload
  | _ => renderOverloaded group
  end.

Definition LF : jsstring := [10%N].

Definition renderJsbsimApiClass (methods : list Method) (typeMetadata : TypeMetadata)
    (ignoreMethods : list jsstring) : result jsstring :=
  let ignoreMethodsSet : gset jsstring := list_to_set ignoreMethods in
  match buildApiMethods methods typeMetadata ignoreMethodsSet with
  | Throw message => Throw message
  | Ok groupedMethods =>
      let imports := collectTypeImports groupedMethods in
      let lines :=
        [ js "// Generated by scripts/generate-fgfdmexec-bindings.mjs.";
          js "// Do not edit manually.";
          [];
          js "import type { " ++ join (js ", ") imports ++ js " } from "
            ++ quoted (js "./fgfdmexec-api") ++ js ";";
          [];
          js "export class JSBSimApi {";
          js "  readonly exec: FGFDMExecApi;";
          [];
          js "  constructor(exec: FGFDMExecApi) {";
          js "    this.exec = exec;";
          js "  }";
          [] ]
        ++ flat_map renderGroup groupedMethods
        ++ [js "}"] in
      Ok (join LF lines)
  end.

End Render.

End RenderJsbsimApi.
Export RenderJsbsimApi.

(* ===================================================================== *)
(** * The raw interface renderer (generate-fgfdmexec-bindings, src/index.ts) *)
(* ===================================================================== *)

Module RenderTs.

(** [toTsType(type, { isReturn })] of the raw renderer: no enum lookup. *)
Definition toTsType (type : jsstring) (isReturn : bool) : jsstring :=
  let normalized := normalizeType type in
  if eqs normalized (js "void") then js "void"
  else if isBoolType normalized then js "boolean"
  else if isNumericType normalized then js "number"
  else if isStringType normalized || isSGPathType normalized then js "string"
  else if isReturn && isVectorOfStringType normalized then js "string[]"
  else js "number".

Definition renderTsMethod (method : Method) : jsstring :=
  let params :=
    join (js ", ")
         (imap (fun index param =>
                  js "arg" ++ showNat index ++ js ": " ++ toTsType (p_type param) false)
               (m_params method)) in
  let returnType := toTsType (m_returnType method) true in
  js "  " ++ m_name method ++ js "(" ++ params ++ js "): " ++ returnType ++ js ";".

Definition renderTsInterface (methods : list Method) : jsstring :=
  let lines :=
    [ js "// Generated by scripts/generate-fgfdmexec-bindings.mjs.";
      js "// Do not edit manually.";
      [];
      js "export type OpaqueHandle = number;";
      [];
      js "export interface FGFDMExecApi {" ]
    ++ map renderTsMethod methods
    ++ [js "}"; []] in
  join LF lines.

End RenderTs.

(* ===================================================================== *)
(** * The clang AST *)
(* ===================================================================== *)

Module Ast.

(** The [value] property of a node.  A JSON number is kept as the text a
    template literal renders it to, [None] when it is not finite. *)
Inductive jsvalue : Type :=
| VAbsent
| VString (s : jsstring)
| VBoolean (b : bool)
| VNumber (rendered : option jsstring).

(** A node of clang's JSON dump, with the properties the generator reads.
    A property that is absent is [None] ([false] for [isImplicit], the
    empty list for [inner], the empty string for [kind]); [hasInit] is
    [Object.hasOwn(node, "init")]. *)
Inductive node : Type := mkNode {
  kind : jsstring;
  name : option jsstring;
  qualType : option jsstring;
  access : option jsstring;
  isImplicit : bool;
  hasInit : bool;
  value : jsvalue;
  opcode : option jsstring;
  text : option jsstring;
  param : option jsstring;
  paramIdx : option Z;
  inner : list node }.

Definition kindIs (k : string) (n : node) : bool := eqs (kind n) (js k).

(** The nodes [walkAst] visits, in the order it visits them. *)
Fixpoint walkAst (n : node) : list node :=
  n :: List.flat_map walkAst (inner n).

Definition findAstNodes (root : node) (predicate : node -> bool) : list node :=
  List.filter predicate (walkAst root).

End Ast.
Export Ast.

(* ===================================================================== *)
(** * methods-from-ast.mjs *)
(* ===================================================================== *)

Module MethodsFromAst.

Definition collapseWhitespace (value : jsstring) : jsstring :=
  trim (replaceAll (re_spaces (js " ")) value).

Definition is_atOpen (c : N) : bool := ((c =? 64) || (c =? 123))%N.
Definition is_atClose (c : N) : bool := ((c =? 64) || (c =? 125))%N.

(** [s.replace(/^[@{]+\s*/, empty)] *)
Definition stripLeadingOpen (s : jsstring) : jsstring :=
  match runLength is_atOpen s with
  | O => s
  | k => trimStart (drop k s)
  end.

(** [s.replace(/\s*[@}]+$/, empty)]: the leftmost match is the final run of
    [@] and [}] together with the run of spaces before it. *)
Definition stripTrailingClose (s : jsstring) : jsstring :=
  match runLength is_atClose (rev s) with
  | O => s
  | k => rev (trimStart (drop k (rev s)))
  end.

Definition sanitizeCommentLine (value : jsstring) : jsstring :=
  let collapsed := trim (stripTrailingClose (stripLeadingOpen (collapseWhitespace value))) in
  if eqs collapsed [] || eqs collapsed (js "@") || eqs collapsed (js "{")
     || eqs collapsed (js "}")
  then []
  else collapsed.

Definition collectTextCommentLines (n : node) : list jsstring :=
  List.flat_map
    (fun innerNode =>
       match kindIs "TextComment" innerNode, text innerNode with
       | true, Some t =>
           match sanitizeCommentLine t with
           | [] => []
           | line => [line]
           end
       | _, _ => []
       end)
    (walkAst n).

Definition collectCommentText (n : node) : jsstring :=
  trim (join (js " ") (collectTextCommentLines n)).

Record ParsedComment : Type := mkParsedComment {
  pc_descriptionLines : list jsstring;
  pc_paramDocsByName : gmap jsstring jsstring;
  pc_paramDocsByIndex : gmap Z jsstring;
  pc_returns : jsstring }.

Definition emptyComment : ParsedComment :=
  {| pc_descriptionLines := []; pc_paramDocsByName := ∅;
     pc_paramDocsByIndex := ∅; pc_returns := [] |}.

(** One iteration of the loop over the top-level comment children. *)
Definition parseCommentChild (acc : ParsedComment) (child : node) : ParsedComment :=
  if kindIs "ParagraphComment" child then
    match collectCommentText child with
    | [] => acc
    | t => {| pc_descriptionLines := pc_descriptionLines acc ++ [t];
              pc_paramDocsByName := pc_paramDocsByName acc;
              pc_paramDocsByIndex := pc_paramDocsByIndex acc;
              pc_returns := pc_returns acc |}
    end
  else if kindIs "ParamCommandComment" child then
    let t := collectCommentText child in
    let paramName := default [] (param child) in
    let byName :=
      if nonEmpty paramName && nonEmpty t
      then <[paramName := t]> (pc_paramDocsByName acc)
      else pc_paramDocsByName acc in
    let byIndex :=
      match paramIdx child with
      | Some paramIndex =>
          if nonEmpty t then <[paramIndex := t]> (pc_paramDocsByIndex acc)
          else pc_paramDocsByIndex acc
      | None => pc_paramDocsByIndex acc
      end in
    {| pc_descriptionLines := pc_descriptionLines acc;
       pc_paramDocsByName := byName;
       pc_paramDocsByIndex := byIndex;
       pc_returns := pc_returns acc |}
  else if kindIs "BlockCommandComment" child then
    let command := toLowerCase (default [] (name child)) in
    if eqs command (js "return") || eqs command (js "returns")
    then {| pc_descriptionLines := pc_descriptionLines acc;
            pc_paramDocsByName := pc_paramDocsByName acc;
            pc_paramDocsByIndex := pc_paramDocsByIndex acc;
            pc_returns := collectCommentText child |}
    else acc
  else acc.

Definition parseMethodComment (fullCommentNode : option node) : ParsedComment :=
  match fullCommentNode with
  | None => emptyComment
  | Some n => fold_left parseCommentChild (inner n) emptyComment
  end.

Definition isPublicMethodNode (n : node) (currentAccess : jsstring) : bool :=
  if negb (eqs currentAccess (js "public")) then false
  else if negb (kindIs "CXXMethodDecl" n) then false
  else if isImplicit n then false
  else if bool_decide (name n = Some CLASS_NAME)
          || bool_decide (name n = Some (js "~" ++ CLASS_NAME)) then false
  else true.

Definition inferReturnType (methodNode : node) : jsstring :=
  let functionType := default [] (qualType methodNode) in
  match indexOfChar 40 functionType with
  | None => []
  | Some openParen => normalizeType (trim (sliceTo openParen functionType))
  end.

(** [/^[A-Za-z_][A-Za-z0-9_]*$/.test(s)] *)
Definition isIdentifier (s : jsstring) : bool :=
  match s with
  | c :: rest => (is_alpha c || (c =? 95)%N) && forallb is_word rest
  | [] => false
  end.

Definition withSuffix (base : jsstring) (suffix : nat) : jsstring :=
  base ++ js "_" ++ showNat suffix.

(** The [while (usedNames.has(`${name}_${suffix}`)) suffix += 1] loop.  The
    loop leaves after at most [size usedNames] increments (see
    [findFreeSuffix_free]), which bounds the recursion. *)
Fixpoint findFreeSuffix (bound : nat) (usedNames : gset jsstring) (base : jsstring)
    (suffix : nat) : nat :=
  match bound with
  | O => suffix
  | S bound' =>
      if bool_decide (withSuffix base suffix ∈ usedNames)
      then findFreeSuffix bound' usedNames base (S suffix)
      else suffix
  end.

Definition setName (p : Param) (newName : jsstring) : Param :=
  {| p_name := newName; p_type := p_type p; p_defaultValue := p_defaultValue p |}.

(** The name given to the parameter at [index], before de-duplication. *)
Definition baseName (index : nat) (p : Param) : jsstring :=
  if nonEmpty (p_name p) && isIdentifier (p_name p)
  then p_name p
  else js "arg" ++ showNat index.

Definition uniqueName (usedNames : gset jsstring) (base : jsstring) : jsstring :=
  if bool_decide (base ∈ usedNames)
  then withSuffix base (findFreeSuffix (size usedNames) usedNames base 1)
  else base.

Fixpoint normalizeParamNames_loop (index : nat) (usedNames : gset jsstring)
    (params : list Param) : list Param :=
  match params with
  | [] => []
  | p :: rest =>
      let newName := uniqueName usedNames (baseName index p) in
      setName p newName
        :: normalizeParamNames_loop (S index) ({[newName]} ∪ usedNames) rest
  end.

Definition normalizeParamNames (params : list Param) : list Param :=
  normalizeParamNames_loop 0 ∅ params.

Definition EXPR_WRAPPER_KINDS : list jsstring :=
  map js ["ExprWithCleanups"; "MaterializeTemporaryExpr"; "ImplicitCastExpr";
          "CXXBindTemporaryExpr"; "CXXDefaultArgExpr"; "ParenExpr"]%string.

(** The tree has no cycles, so the [visited] set never stops the loop. *)
Fixpoint unwrapExprNode (n : node) : node :=
  if bool_decide (kind n ∈ EXPR_WRAPPER_KINDS)
  then match inner n with
       | [] => n
       | first :: _ => unwrapExprNode first
       end
  else n.

Definition findDescendant (n : node) (predicate : node -> bool) : option node :=
  List.find predicate (walkAst n).

Definition is_sign (c : N) : bool := ((c =? 43) || (c =? 45))%N.

(** [/^[-+]?\d+(\.\d+)?([eE][-+]?\d+)?$/.test(s)] *)
Definition isNumberText (s : jsstring) : bool :=
  let s1 := match s with c :: r => if is_sign c then r else s | [] => s end in
  let d1 := runLength is_digit s1 in
  let s2 := drop d1 s1 in
  let s3 :=
    match s2 with
    | c :: r =>
        if (c =? 46)%N && (1 <=? runLength is_digit r)
        then drop (runLength is_digit r) r else s2
    | [] => s2
    end in
  let s4 :=
    match s3 with
    | c :: r =>
        if ((c =? 101) || (c =? 69))%N then
          let r' := match r with x :: t => if is_sign x then t else r | [] => r end in
          if 1 <=? runLength is_digit r' then drop (runLength is_digit r') r' else s3
        else s3
    | [] => s3
    end in
  (1 <=? d1) && eqs s4 [].

Definition toNumberLiteral (v : jsvalue) : option jsstring :=
  match v with
  | VNumber (Some rendered) => Some rendered
  | VString s => if isNumberText (trim s) then Some (trim s) else None
  | _ => None
  end.

Definition isNumericLiteralNode (n : node) : bool :=
  kindIs "IntegerLiteral" n || kindIs "FloatingLiteral" n.

Definition isStringLiteralNode (n : node) : bool :=
  kindIs "StringLiteral" n && match value n with VString _ => true | _ => false end.

(** [numberLiteral.replace(/^[+-]/, empty)] *)
Definition stripSign (s : jsstring) : jsstring :=
  match s with c :: r => if is_sign c then r else s | [] => s end.

Definition signedLiteral (unwrapped : node) : option jsstring :=
  if kindIs "UnaryOperator" unwrapped
     && (bool_decide (opcode unwrapped = Some (js "-"))
         || bool_decide (opcode unwrapped = Some (js "+")))
  then
    match inner unwrapped with
    | first :: _ =>
        let operand := unwrapExprNode first in
        if isNumericLiteralNode operand then
          match toNumberLiteral (value operand) with
          | Some [] | None => None
          | Some numberLiteral =>
              Some (default [] (opcode unwrapped) ++ stripSign numberLiteral)
          end
        else None
    | [] => None
    end
  else None.

Definition extractTsDefaultValueFromExpr (exprNode : option node) (paramType : jsstring)
    : option jsstring :=
  match exprNode with
  | None => None
  | Some expr =>
      let unwrapped := unwrapExprNode expr in
      match kindIs "CXXBoolLiteralExpr" unwrapped, value unwrapped with
      | true, VBoolean b => Some (if b then js "true" else js "false")
      | _, _ =>
          if isNumericLiteralNode unwrapped then toNumberLiteral (value unwrapped)
          else
            match signedLiteral unwrapped with
            | Some literal => Some literal
            | None =>
                match kindIs "StringLiteral" unwrapped, value unwrapped with
                | true, VString s => Some s
                | _, _ =>
                    match value <$> findDescendant unwrapped isStringLiteralNode with
                    | Some (VString (c :: s)) => Some (c :: s)
                    | _ =>
                        if (isStringType paramType || isSGPathType paramType)
                           && (kindIs "CXXConstructExpr" unwrapped
                               || kindIs "CXXTemporaryObjectExpr" unwrapped)
                        then Some (quoted [])
                        else None
                    end
                end
            end
      end
  end.

Definition extractParamDefaultValue (paramNode : node) (paramType : jsstring)
    : option jsstring :=
  if negb (hasInit paramNode) then None
  else extractTsDefaultValueFromExpr (head (inner paramNode)) paramType.

Definition extractMethodParams (methodNode : node) : list Param :=
  let paramNodes := List.filter (kindIs "ParmVarDecl") (inner methodNode) in
  let params :=
    map (fun paramNode =>
           let paramType := normalizeType (default (js "void") (qualType paramNode)) in
           {| p_name := default [] (name paramNode);
              p_type := paramType;
              p_defaultValue := extractParamDefaultValue paramNode paramType |})
        paramNodes in
  normalizeParamNames params.

Definition extractMethodJsDoc (parsedComment : ParsedComment) (params : list Param) : JsDoc :=
  {| descriptionLines := pc_descriptionLines parsedComment;
     paramDocs :=
       List.flat_map
         (fun '(index, p) =>
            let byIndex := pc_paramDocsByIndex parsedComment !! Z.of_nat index in
            let byName := pc_paramDocsByName parsedComment !! p_name p in
            match default (default [] byName) byIndex with
            | [] => []
            | t => [ {| pd_name := p_name p; pd_text := t |} ]
            end)
         (imap (fun index p => (index, p)) params);
     returns := pc_returns parsedComment |}.

(** The method record pushed for a public method node whose return type is
    [returnType]. *)
Definition extractMethod (child : node) (returnType : jsstring) : Method :=
  let fullCommentNode := List.find (kindIs "FullComment") (inner child) in
  let parsedComment := parseMethodComment fullCommentNode in
  let params := extractMethodParams child in
  {| m_name := default [] (name child);
     m_returnType := returnType;
     m_params := params;
     m_jsDoc := extractMethodJsDoc parsedComment params |}.

(** The loop over the members of the class; [currentAccess] is the access
    region in force. *)
Fixpoint extractPublicMethods_loop (currentAccess : jsstring) (children : list node)
    : list Method :=
  match children with
  | [] => []
  | child :: rest =>
      if kindIs "AccessSpecDecl" child
      then extractPublicMethods_loop (default currentAccess (access child)) rest
      else if negb (isPublicMethodNode child currentAccess)
      then extractPublicMethods_loop currentAccess rest
      else
        match inferReturnType child with
        | [] => extractPublicMethods_loop currentAccess rest
        | returnType =>
            extractMethod child returnType
              :: extractPublicMethods_loop currentAccess rest
        end
  end.

Definition extractPublicMethodsFromClass (classNode : node) : list Method :=
  extractPublicMethods_loop (js "private") (inner classNode).

End MethodsFromAst.
Export MethodsFromAst.

(* ===================================================================== *)
(** * type-metadata.mjs: enumerators *)
(* ===================================================================== *)

Module TypeMetadataEnum.

(** [/^-?\d+$/.test(s)] *)
Definition isIntegerText (s : jsstring) : bool :=
  let digits := match s with c :: r => if (c =? 45)%N then r else s | [] => s end in
  nonEmpty digits && forallb is_digit digits.

Definition digitsValue (digits : jsstring) : Z :=
  fold_left (fun acc c => (10 * acc + (Z.of_N c - 48))%Z) digits 0%Z.

(** [Number.parseInt(s, 10)] on a text accepted by [isIntegerText].
    Numbers are integers here; the doubles of JavaScript represent them
    exactly up to 2^53 in absolute value. *)
Definition parseInt (s : jsstring) : Z :=
  match s with
  | c :: r => if (c =? 45)%N then (- digitsValue r)%Z else digitsValue s
  | [] => 0%Z
  end.

Definition firstSome {A B} (f : A -> option B) : list A -> option B :=
  fix first (l : list A) : option B :=
    match l with
    | [] => None
    | x :: l' => match f x with Some v => Some v | None => first l' end
    end.

Fixpoint extractFirstIntegerValue (n : node) : option Z :=
  match value n with
  | VString s =>
      if isIntegerText s then Some (parseInt s)
      else firstSome extractFirstIntegerValue (inner n)
  | _ => firstSome extractFirstIntegerValue (inner n)
  end.

Definition isEnumConstant (child : node) : bool :=
  kindIs "EnumConstantDecl" child
  && match name child with Some (_ :: _) => true | _ => false end.

Fixpoint extractEnumMembers_loop (nextValue : Z) (children : list node) : list EnumMember :=
  match children with
  | [] => []
  | child :: rest =>
      if negb (isEnumConstant child) then extractEnumMembers_loop nextValue rest
      else
        let v := default nextValue (extractFirstIntegerValue child) in
        {| em_name := default [] (name child); em_value := v |}
          :: extractEnumMembers_loop (v + 1)%Z rest
  end.

Definition extractEnumMembers (enumDeclNode : node) : list EnumMember :=
  extractEnumMembers_loop 0%Z (inner enumDeclNode).


(** The rule of the data model, read on its own: an enumerator with an
    explicit integer has that value; one without has the value of the
    previous member plus one, and zero when it is the first. *)
Fixpoint rederive (previous : option Z) (explicit : list (option Z)) : list Z :=
  match explicit with
  | [] => []
  | e :: rest =>
      let v := match e, previous with
               | Some x, _ => x
               | None, Some p => (p + 1)%Z
               | None, None => 0%Z
               end in
      v :: rederive (Some v) rest
  end.

End TypeMetadataEnum.
Export TypeMetadataEnum.

(* ===================================================================== *)
(** * clang-ast.mjs: acquiring the AST *)
(* ===================================================================== *)

Module ClangAst.

Section Acquisition.

(** The numbers of JavaScript, with the test for [0], [-0] and [NaN]. *)
Context {Number : Type}.
Variable isZeroOrNaN : Number -> bool.

(** What [JSON.parse] returns. *)
Inductive json : Type :=
| JNull
| JBool (b : bool)
| JNumber (x : Number)
| JString (s : jsstring)
| JArray (items : list json)
| JObject (fields : list (jsstring * json)).

(** [!value] is [negb (truthy value)]. *)
Definition truthy (v : json) : bool :=
  match v with
  | JNull => false
  | JBool b => b
  | JNumber x => negb (isZeroOrNaN x)
  | JString s => nonEmpty s
  | JArray _ | JObject _ => true
  end.

(** [JSON.parse]; [None] when it throws. *)
Variable JSON_parse : jsstring -> option json.

Record ScanState : Type := mkScanState {
  start : option nat;
  depth : Z;
  inString : bool;
  escaped : bool;
  docs : list json }.

Definition LBRACE : N := 123%N.
Definition RBRACE : N := 125%N.
Definition BACKSLASH : N := 92%N.
Definition QUOTE : N := 34%N.

(** [trimmed.slice(from, to)] for [from <= to]. *)
Definition slice (from to : nat) (s : jsstring) : jsstring :=
  take (to - from) (drop from s).

(** The scanning loop of [parseClangJsonOutput]; [rest] is the part of
    [trimmed] from [index] on.  [None] is the [return null] of the
    [catch] around the parse of a chunk. *)
Fixpoint scanDocuments (trimmed : jsstring) (index : nat) (rest : jsstring)
    (st : ScanState) : option (list json) :=
  match rest with
  | [] => Some (docs st)
  | ch :: rest' =>
      let continue := scanDocuments trimmed (S index) rest' in
      match start st with
      | None =>
          if (ch =? LBRACE)%N
          then continue {| start := Some index; depth := 1; inString := false;
                           escaped := false; docs := docs st |}
          else continue st
      | Some from =>
          if inString st then
            if escaped st
            then continue {| start := start st; depth := depth st; inString := true;
                             escaped := false; docs := docs st |}
            else if (ch =? BACKSLASH)%N
            then continue {| start := start st; depth := depth st; inString := true;
                             escaped := true; docs := docs st |}
            else if (ch =? QUOTE)%N
            then continue {| start := start st; depth := depth st; inString := false;
                             escaped := escaped st; docs := docs st |}
            else continue st
          else if (ch =? QUOTE)%N
          then continue {| start := start st; depth := depth st; inString := true;
                           escaped := escaped st; docs := docs st |}
          else if (ch =? LBRACE)%N
          then continue {| start := start st; depth := (depth st + 1)%Z;
                           inString := inString st; escaped := escaped st;
                           docs := docs st |}
          else if (ch =? RBRACE)%N
          then
            let depth' := (depth st - 1)%Z in
            if (depth' =? 0)%Z
            then
              match JSON_parse (slice from (index + 1) trimmed) with
              | Some doc =>
                  continue {| start := None; depth := depth'; inString := inString st;
                              escaped := escaped st; docs := docs st ++ [doc] |}
              | None => None
              end
            else continue {| start := start st; depth := depth'; inString := inString st;
                             escaped := escaped st; docs := docs st |}
          else continue st
      end
  end.

Definition initialScan : ScanState :=
  {| start := None; depth := 0; inString := false; escaped := false; docs := [] |}.

Definition documentSet (documents : list json) : json :=
  JObject [ (js "kind", JString (js "ClangAstDocumentSet"));
            (js "inner", JArray documents) ].

Definition parseClangJsonOutput (output : jsstring) : json :=
  let trimmed := trim output in
  match trimmed with
  | [] => JNull
  | _ =>
      match JSON_parse trimmed with
      | Some document => document
      | None =>
          match scanDocuments trimmed 0 trimmed initialScan with
          | None => JNull
          | Some [] => JNull
          | Some [document] => document
          | Some documents => documentSet documents
          end
      end
  end.

(** What [spawnSync] reports: [error] is set when the executable could not
    be run or its output exceeded the buffer, [status] is the exit code. *)
Record SpawnResult : Type := mkSpawnResult {
  sr_error : bool;
  sr_status : option Z;
  sr_stdout : jsstring }.

Variable spawnSync : jsstring -> list jsstring -> SpawnResult.
Variable JSBSIM_SRC_DIR : jsstring.

Definition compilers : list jsstring := [js "clang++"; js "clang"].

Definition clangArgs (sourcePath : jsstring) (filter : option jsstring) : list jsstring :=
  [js "-std=c++17"; js "-I"; JSBSIM_SRC_DIR; js "-fsyntax-only"]
  ++ match filter with
     | Some (c :: f) => [js "-Xclang"; js "-ast-dump-filter=" ++ (c :: f)]
     | _ => []
     end
  ++ [js "-Xclang"; js "-ast-dump=json"; sourcePath].

Definition succeeded (result : SpawnResult) : bool :=
  negb (sr_error result) && bool_decide (sr_status result = Some 0%Z).

Fixpoint tryCompilers (candidates : list jsstring) (args : list jsstring) : json :=
  match candidates with
  | [] => JNull
  | compiler :: rest =>
      let result := spawnSync compiler args in
      if negb (succeeded result) then tryCompilers rest args
      else
        let parsed := parseClangJsonOutput (sr_stdout result) in
        if negb (truthy parsed) then tryCompilers rest args
        else parsed
  end.

Definition runClangAstDumpFromFile (sourcePath : jsstring) (filter : option jsstring)
    : json :=
  tryCompilers compilers (clangArgs sourcePath filter).

(** ** The splitting strategy, read on its own

    The output is scanned once.  Outside an object, everything up to the
    next opening brace is dropped.  Inside, the characters are collected
    while the brace depth and the string and escape state are followed;
    the closing brace that brings the depth back to zero ends the chunk. *)
Inductive StringState : Type := Plain | InString | InEscape.

Inductive SplitMode : Type :=
| Outside
| Inside (chunk : jsstring) (level : nat) (str : StringState).

Fixpoint topLevelObjects_from (mode : SplitMode) (s : jsstring) : list jsstring :=
  match s with
  | [] => []
  | ch :: s' =>
      match mode with
      | Outside =>
          if (ch =? LBRACE)%N
          then topLevelObjects_from (Inside [ch] 0 Plain) s'
          else topLevelObjects_from Outside s'
      | Inside chunk level InEscape =>
          topLevelObjects_from (Inside (chunk ++ [ch]) level InString) s'
      | Inside chunk level InString =>
          if (ch =? BACKSLASH)%N
          then topLevelObjects_from (Inside (chunk ++ [ch]) level InEscape) s'
          else if (ch =? QUOTE)%N
          then topLevelObjects_from (Inside (chunk ++ [ch]) level Plain) s'
          else topLevelObjects_from (Inside (chunk ++ [ch]) level InString) s'
      | Inside chunk level Plain =>
          if (ch =? QUOTE)%N
          then topLevelObjects_from (Inside (chunk ++ [ch]) level InString) s'
          else if (ch =? LBRACE)%N
          then topLevelObjects_from (Inside (chunk ++ [ch]) (S level) Plain) s'
          else if (ch =? RBRACE)%N
          then match level with
               | O => (chunk ++ [ch]) :: topLevelObjects_from Outside s'
               | S level' => topLevelObjects_from (Inside (chunk ++ [ch]) level' Plain) s'
               end
          else topLevelObjects_from (Inside (chunk ++ [ch]) level Plain) s'
      end
  end.

(** The top-level JSON objects of an output, in order; [level] counts the
    braces open inside the current object. *)
Definition topLevelObjects (s : jsstring) : list jsstring :=
  topLevelObjects_from Outside s.

(** All chunks parsed, or [None] as soon as one does not. *)
Fixpoint parseAll (chunks : list jsstring) : option (list json) :=
  match chunks with
  | [] => Some []
  | chunk :: rest =>
      match JSON_parse chunk with
      | None => None
      | Some doc => cons doc <$> parseAll rest
      end
  end.

(** The chunks that parse, the others left out. *)
Definition parsedChunks (chunks : list jsstring) : list json :=
  omap JSON_parse chunks.

(** An output is parsable when one of the two strategies yields a
    document: the whole output parses, or its split has a chunk that
    parses. *)
Definition parsable (output : jsstring) : bool :=
  match trim output with
  | [] => false
  | trimmed =>
      match JSON_parse trimmed with
      | Some _ => true
      | None =>
          match parsedChunks (topLevelObjects trimmed) with
          | [] => false
          | _ => true
          end
      end
  end.

(** The three outcomes of the splitting strategy when they are decided by
    the number of documents that parsed alone. *)
Definition parseByCount (output : jsstring) : json :=
  match trim output with
  | [] => JNull
  | trimmed =>
      match JSON_parse trimmed with
      | Some document => document
      | None =>
          match parsedChunks (topLevelObjects trimmed) with
          | [] => JNull
          | [document] => document
          | documents => documentSet documents
          end
      end
  end.

(** The first candidate, in the fixed order, satisfying [ok]. *)
Definition firstCandidate (ok : SpawnResult -> bool) (args : list jsstring)
    : option SpawnResult :=
  List.find ok (map (fun compiler => spawnSync compiler args) compilers).

End Acquisition.

End ClangAst.
Export ClangAst.

(* ===================================================================== *)
(** * Notions used to state the properties *)
(* ===================================================================== *)

Module Properties.

(** ** Overloads and fill cases *)

(** [k] is the index of the first parameter of the trailing run of
    defaulted parameters: every parameter from [k] on has a default, and
    the one before [k], when there is one, has none. *)
Definition firstTrailingDefaulted (params : list ApiParam) (k : nat) : Prop :=
  k <= length params
  /\ (forall i p, k <= i -> params !! i = Some p -> ap_defaultValue p <> None)
  /\ (forall p, 0 < k -> params !! (k - 1) = Some p -> ap_defaultValue p = None).

(** Fill cases recorded exactly for the counts strictly between the
    minimum and the maximum of an overload that a single overload accepts. *)
Definition fillCasesStrictlyBetween (overloads : list Overload) : Prop :=
  forall n,
    In n (map providedArgCount (buildDefaultFillCasesForOverloads overloads)) <->
    exists ov, In ov overloads
      /\ minArgs (overloadRange ov) < n < maxArgs (overloadRange ov)
      /\ acceptorCount (map overloadRange overloads) n = 1.

(** ** Method groups *)

(** Two methods with distinct source names and one camel name. *)
Definition namesCollide (methods : list Method) : Prop :=
  exists m1 m2, In m1 methods /\ In m2 methods
    /\ m_name m1 <> m_name m2
    /\ toCamelCaseName (m_name m1) = toCamelCaseName (m_name m2).

Definition notIgnored (ignoreMethodsSet : gset jsstring) (methods : list Method)
    : list Method :=
  filter (fun m => m_name m ∉ ignoreMethodsSet) methods.

(** ** Return types and public methods *)

(** Opening and closing brackets of a type spelling: parentheses, angle
    brackets, square brackets and braces, the nesting that [splitTopLevel]
    of the generator script follows. *)
Definition isOpener (c : N) : bool := ((c =? 40) || (c =? 60) || (c =? 91) || (c =? 123))%N.
Definition isCloser (c : N) : bool := ((c =? 41) || (c =? 62) || (c =? 93) || (c =? 125))%N.

(** Position of the first opening parenthesis at the top level of a type
    spelling, that is outside every pair of brackets; [level] counts the
    brackets open at [index]. *)
Fixpoint firstTopLevelParen_from (level index : nat) (s : jsstring) : option nat :=
  match s with
  | [] => None
  | c :: s' =>
      if (c =? 40)%N && (level =? 0) then Some index
      else if isOpener c then firstTopLevelParen_from (S level) (S index) s'
      else if isCloser c then firstTopLevelParen_from (pred level) (S index) s'
      else firstTopLevelParen_from level (S index) s'
  end.

Definition firstTopLevelParen (s : jsstring) : option nat :=
  firstTopLevelParen_from 0 0 s.

(** The return type as the text before the first top-level opening
    parenthesis. *)
Definition returnTypeBeforeTopLevelParen (functionType : jsstring) : jsstring :=
  match firstTopLevelParen functionType with
  | None => []
  | Some openParen => normalizeType (sliceTo openParen functionType)
  end.

(** The members of a class that are public methods, given the access
    region in force at the first of them. *)
Fixpoint publicMethodNodes_from (currentAccess : jsstring) (children : list node)
    : list node :=
  match children with
  | [] => []
  | child :: rest =>
      if kindIs "AccessSpecDecl" child
      then publicMethodNodes_from (default currentAccess (access child)) rest
      else if isPublicMethodNode child currentAccess
      then child :: publicMethodNodes_from currentAccess rest
      else publicMethodNodes_from currentAccess rest
  end.

Definition publicMethodNodes (classNode : node) : list node :=
  publicMethodNodes_from (js "private") (inner classNode).

(** ** Scenarios of the specification *)

Definition noDoc : JsDoc := {| descriptionLines := []; paramDocs := []; returns := [] |}.

(** No enum, no flag group: what [buildTypeMetadata] yields for a class
    that declares none and whose methods have no enum-like type. *)
Definition emptyTypeMetadata : TypeMetadata :=
  {| enumLookup := ∅; paramTypeOverrides := ∅; returnTypeOverrides := ∅ |}.

Definition simpleParam (n t : string) (d : option string) : Param :=
  {| p_name := js n; p_type := js t; p_defaultValue := js <$> d |}.

(** Scenario A: [void Run()] and [bool RunIC()]. *)
Definition scenarioA : list Method :=
  [ {| m_name := js "Run"; m_returnType := js "void"; m_params := []; m_jsDoc := noDoc |};
    {| m_name := js "RunIC"; m_returnType := js "bool"; m_params := []; m_jsDoc := noDoc |} ].

(** Scenario B: [bool LoadModel(string, bool = true)] and
    [bool LoadModel(path, path, path, string, bool = true)]. *)
Definition scenarioB : list Method :=
  [ {| m_name := js "LoadModel"; m_returnType := js "bool";
       m_params := [ simpleParam "model" "const std::string &" None;
                     simpleParam "addModelToPath" "bool" (Some "true") ];
       m_jsDoc := noDoc |};
    {| m_name := js "LoadModel"; m_returnType := js "bool";
       m_params := [ simpleParam "AircraftPath" "const SGPath &" None;
                     simpleParam "EnginePath" "const SGPath &" None;
                     simpleParam "SystemsPath" "const SGPath &" None;
                     simpleParam "model" "const std::string &" None;
                     simpleParam "addModelToPath" "bool" (Some "true") ];
       m_jsDoc := noDoc |} ]%string.

Definition scenarioB_overloads : list Overload :=
  map (makeOverload emptyTypeMetadata) scenarioB.

(** Two overloads that both accept one argument: [f(a, b = 0)] and [f(a)]. *)
Definition ambiguousOverloads : list Overload :=
  map (makeOverload emptyTypeMetadata)
    [ {| m_name := js "f"; m_returnType := js "void";
         m_params := [ simpleParam "a" "int" None; simpleParam "b" "int" (Some "0") ];
         m_jsDoc := noDoc |};
      {| m_name := js "f"; m_returnType := js "void";
         m_params := [ simpleParam "a" "int" None ];
         m_jsDoc := noDoc |} ]%string.

(** Scenario E: [Foo()] and [foo()]. *)
Definition scenarioE : list Method :=
  [ {| m_name := js "Foo"; m_returnType := js "void"; m_params := []; m_jsDoc := noDoc |};
    {| m_name := js "foo"; m_returnType := js "void"; m_params := []; m_jsDoc := noDoc |} ].

(** Scenario C: [enum eMode { tA, tB, tC }]. *)
Definition plainNode (k : string) (n : option string) (children : list node) : node :=
  {| kind := js k; name := js <$> n; qualType := None; access := None;
     isImplicit := false; hasInit := false; value := VAbsent; opcode := None;
     text := None; param := None; paramIdx := None; inner := children |}.

(** A method declaration as clang dumps it: its name and the spelling of
    its function type. *)
Definition methodNode (n functionType : string) : node :=
  {| kind := js "CXXMethodDecl"; name := Some (js n); qualType := Some (js functionType);
     access := None; isImplicit := false; hasInit := false; value := VAbsent;
     opcode := None; text := None; param := None; paramIdx := None; inner := [] |}.

Definition accessNode (a : string) : node :=
  {| kind := js "AccessSpecDecl"; name := None; qualType := None;
     access := Some (js a); isImplicit := false; hasInit := false; value := VAbsent;
     opcode := None; text := None; param := None; paramIdx := None; inner := [] |}.

(** The class of scenario A. *)
Definition scenarioA_class : node :=
  plainNode "CXXRecordDecl" (Some "FGFDMExec"%string)
    [ accessNode "public"; methodNode "Run" "void ()"; methodNode "RunIC" "bool ()" ].

(** A method returning a callback: [std::function<void(int)> GetCallback()]. *)
Definition callbackGetter : node :=
  methodNode "GetCallback" "std::function<void (int)> ()".

Definition scenarioC : node :=
  plainNode "EnumDecl" (Some "eMode"%string)
    [ plainNode "EnumConstantDecl" (Some "tA"%string) [];
      plainNode "EnumConstantDecl" (Some "tB"%string) [];
      plainNode "EnumConstantDecl" (Some "tC"%string) [] ].

(** ** A compiler front end and a parser for the counterexamples

    [stubParse] answers as [JSON.parse] does on the four texts the
    counterexamples make it read: the empty object and the number zero
    parse, the texts [{}{x}] and [{x}] are syntax errors. *)
Definition stubParse (s : jsstring) : option (json (Number:=Z)) :=
  if eqs s (js "{}") then Some (JObject [])
  else if eqs s (js "0") then Some (JNumber 0%Z)
  else None.

(** A front end whose [clang++] exits with status 0 after printing [0],
    and whose [clang] cannot be run. *)
Definition stubSpawn (compiler : jsstring) (args : list jsstring) : SpawnResult :=
  if eqs compiler (js "clang++")
  then {| sr_error := false; sr_status := Some 0%Z; sr_stdout := js "0" |}
  else {| sr_error := true; sr_status := None; sr_stdout := [] |}.

End Properties.
Export Properties.

(* ===================================================================== *)
(** * Invariants of the loops *)
(* ===================================================================== *)

Module Invariants.

(** The state of the loop of [buildApiMethods] once the methods [seen]
    (those not ignored, in order) have been grouped: the index holds the
    position of every group under its camel name, a group holds the
    overloads of the methods seen under its source name, every method seen
    has its group, and no two source names share a camel name. *)
Record grouped (typeMetadata : TypeMetadata) (seen : list Method)
    (groups : list Group) (index : gmap jsstring nat) : Prop := {
  g_index : forall c i,
    index !! c = Some i <-> exists g, groups !! i = Some g /\ camelName g = c;
  g_group : forall i g, groups !! i = Some g ->
    camelName g = toCamelCaseName (sourceMethodName g)
    /\ overloads g
       = map (makeOverload typeMetadata)
             (filter (fun m => m_name m = sourceMethodName g) seen)
    /\ exists m, In m seen /\ m_name m = sourceMethodName g;
  g_placed : forall m, In m seen ->
    exists g, In g groups /\ sourceMethodName g = m_name m;
  g_distinct : ~ namesCollide seen }.

End Invariants.
Export Invariants.

Module ScanInvariant.


(** The state of the scanning loop of [parseClangJsonOutput] at [index],
    with [rest] still to read, against the mode of [topLevelObjects]:
    the chunk collected is the text from [start] to [index], the depth is
    one more than the braces open inside the object, and the two flags
    tell the string state. *)
Definition scanMatches {Number : Type} (trimmed : jsstring) (index : nat)
    (rest : jsstring) (st : ScanState (Number:=Number)) (mode : SplitMode) : Prop :=
  match mode with
  | Outside => start st = None
  | Inside chunk level str =>
      exists from, start st = Some from
        /\ drop from trimmed = chunk ++ rest
        /\ index = from + length chunk
        /\ depth st = (Z.of_nat level + 1)%Z
        /\ match str with
           | Plain => inString st = false /\ escaped st = false
           | InString => inString st = true /\ escaped st = false
           | InEscape => inString st = true /\ escaped st = true
           end
  end.

End ScanInvariant.
Export ScanInvariant.

(* ===================================================================== *)
(** * Type spellings as segments *)
(* ===================================================================== *)

(** The four steps of [normalizeType] leave the characters that are not
    spaces where they are and rewrite only the runs of spaces between
    them.  A type spelling is therefore read as a sequence of tokens, each
    with the run of spaces before it, closed by an end marker that carries
    the final run of spaces. *)
Module Segments.

Inductive tok : Type :=
| TPunct (c : N)          (* one of [*&<>,] *)
| TWord (w : jsstring)    (* a maximal run of word characters *)
| TOther (c : N)          (* any other character that is not a space *)
| TEnd.

Definition item : Type := (jsstring * tok)%type.

Definition tokText (t : tok) : jsstring :=
  match t with
  | TPunct c => [c]
  | TWord w => w
  | TOther c => [c]
  | TEnd => []
  end.

Fixpoint render (items : list item) : jsstring :=
  match items with
  | [] => []
  | (g, t) :: rest => g ++ tokText t ++ render rest
  end.

Definition isWordTok (t : tok) : bool := match t with TWord _ => true | _ => false end.
Definition isPunctTok (t : tok) : bool := match t with TPunct _ => true | _ => false end.
Definition isConstTok (t : tok) : bool :=
  match t with TWord w => eqs w (js "const") | _ => false end.
Definition isEndTok (t : tok) : bool := match t with TEnd => true | _ => false end.

Definition optb (f : tok -> bool) (o : option tok) : bool :=
  match o with Some t => f t | None => false end.

Definition allSpace (g : jsstring) : bool := forallb is_space g.

Definition tokOk (t : tok) : bool :=
  match t with
  | TPunct c => is_tpunct c
  | TWord w => nonEmpty w && forallb is_word w
  | TOther c => negb (is_space c) && negb (is_word c) && negb (is_tpunct c)
  | TEnd => false
  end.

(** Well-formed segments: gaps are runs of spaces, tokens are of their
    kind, the end marker comes last, and two words are never adjacent
    ([afterWord] tells that the character before the segments is a word
    character). *)
Inductive segOk : bool -> list item -> Prop :=
| segOk_end (afterWord : bool) (g : jsstring) :
    allSpace g = true -> segOk afterWord [(g, TEnd)]
| segOk_cons (afterWord : bool) (g : jsstring) (t : tok) (rest : list item) :
    allSpace g = true -> tokOk t = true ->
    (afterWord = true -> isWordTok t = true -> g <> []) ->
    segOk (isWordTok t) rest ->
    segOk afterWord ((g, t) :: rest).

(** Reading a spelling from its last character to its first. *)
Definition lexCons (c : N) (items : list item) : list item :=
  if is_space c then
    match items with
    | (g, t) :: rest => (c :: g, t) :: rest
    | [] => [([c], TEnd)]
    end
  else if is_tpunct c then ([], TPunct c) :: items
  else if is_word c then
    match items with
    | ([], TWord w) :: rest => ([], TWord (c :: w)) :: rest
    | _ => ([], TWord [c]) :: items
    end
  else ([], TOther c) :: items.

Definition lex (s : jsstring) : list item := fold_right lexCons [([], TEnd)] s.

(** A rewriting of the gaps that looks at the token before and the token
    after each gap. *)
Definition gapfun : Type := option tok -> tok -> jsstring -> jsstring.

Fixpoint mapGaps (f : gapfun) (prev : option tok) (items : list item) : list item :=
  match items with
  | [] => []
  | (g, t) :: rest => (f prev t g, t) :: mapGaps f (Some t) rest
  end.

Definition squash (g : jsstring) : jsstring :=
  match g with [] => [] | _ => js " " end.

(** What each step of [normalizeType] does to a gap. *)
Definition gapSpaces : gapfun := fun _ _ g => squash g.
Definition gapPunct : gapfun := fun prev t g =>
  if optb isPunctTok prev || isPunctTok t then [] else g.
Definition gapConst : gapfun := fun prev _ g =>
  if optb isConstTok prev then js " " else g.
Definition gapTrim : gapfun := fun prev t g =>
  match prev, t with
  | None, _ => []
  | _, TEnd => []
  | _, _ => g
  end.

Definition gapNormal : gapfun := fun prev t g =>
  gapTrim prev t (gapConst prev t (gapPunct prev t (gapSpaces prev t g))).

(** The text of the segments after their first gap. *)
Definition renderTail (items : list item) : jsstring :=
  match items with
  | [] => []
  | (_, t) :: rest => tokText t ++ render rest
  end.

Definition firstTok (items : list item) : option tok :=
  match items with
  | [] => None
  | (_, t) :: _ => Some t
  end.

Definition firstGap (items : list item) : jsstring :=
  match items with
  | [] => []
  | (g, _) :: _ => g
  end.

(** The text is empty or begins with a character that is not a space. *)
Definition startsNonSpace (s : jsstring) : Prop :=
  match s with [] => True | c :: _ => is_space c = false end.

(** The text is empty or begins with a character that is not a word
    character. *)
Definition startsNonWord (s : jsstring) : Prop :=
  match s with [] => True | c :: _ => is_word c = false end.

End Segments.
Export Segments.

(* ===================================================================== *)
(** * Properties *)
(* ===================================================================== *)

(** ** Character classes *)
Ltac charclass :=
  unfold is_space, is_word, is_alpha, is_upper, is_lower, is_digit, is_tpunct in *;
  repeat match goal with
         | H : _ = false |- _ => apply not_true_iff_false in H
         | |- _ = false => apply not_true_iff_false; intros ?
         end;
  rewrite ?orb_true_iff, ?andb_true_iff, ?N.eqb_eq, ?N.leb_le in *;
  try lia.

Lemma word_not_space c : is_word c = true -> is_space c = false.
Proof. intros H. charclass. Qed.

Lemma tpunct_not_space c : is_tpunct c = true -> is_space c = false.
Proof. intros H. charclass. Qed.

Lemma tpunct_not_word c : is_tpunct c = true -> is_word c = false.
Proof. intros H. charclass. Qed.

Lemma space_not_word c : is_space c = true -> is_word c = false.
Proof. intros H. charclass. Qed.

Lemma space_not_tpunct c : is_space c = true -> is_tpunct c = false.
Proof. intros H. charclass. Qed.

(** ** The replace engine *)

Lemma lastOr_cons prev c a : lastOr prev (c :: a) = lastOr (Some c) a.
Proof.
  unfold lastOr. destruct a as [|d a]; [reflexivity|].
  change (last (c :: d :: a)) with (last (d :: a)).
  destruct (last (d :: a)) eqn:E; [reflexivity|].
  by apply last_None in E.
Qed.

Lemma replaceAll_from_skip m prev a s :
  replaceAll_from m prev (length a) (a ++ s) = replaceAll_from m (lastOr prev a) 0 s.
Proof.
  revert prev. induction a as [|c a IH]; intros prev; [done|].
  simpl. rewrite IH. by rewrite lastOr_cons.
Qed.

Lemma replaceAll_from_match m prev a s rep :
  a <> [] -> m prev (a ++ s) = Some (length a, rep) ->
  replaceAll_from m prev 0 (a ++ s) = rep ++ replaceAll_from m (lastOr prev a) 0 s.
Proof.
  destruct a as [|c a]; [done|]. intros _ Hm.
  change ((c :: a) ++ s) with (c :: (a ++ s)) in *.
  cbn [replaceAll_from]. rewrite Hm. cbn [length].
  by rewrite replaceAll_from_skip, lastOr_cons.
Qed.

Lemma replaceAll_from_copy m prev c s :
  m prev (c :: s) = None ->
  replaceAll_from m prev 0 (c :: s) = c :: replaceAll_from m (Some c) 0 s.
Proof. intros Hm. cbn [replaceAll_from]. by rewrite Hm. Qed.

(** A run of characters at none of which the expression matches is copied. *)
Lemma replaceAll_from_copy_run m (a : jsstring) : forall prev s,
  (forall p a1 c a2, a = a1 ++ c :: a2 -> p = lastOr prev a1 -> m p (c :: a2 ++ s) = None) ->
  replaceAll_from m prev 0 (a ++ s) = a ++ replaceAll_from m (lastOr prev a) 0 s.
Proof.
  induction a as [|c a IH]; intros prev s H; [done|].
  change ((c :: a) ++ s) with (c :: (a ++ s)).
  rewrite replaceAll_from_copy by (apply (H prev [] c a); done).
  rewrite IH, lastOr_cons; [done|].
  intros p a1 d a2 -> ->. apply (H _ (c :: a1) d a2); [done|].
  by rewrite lastOr_cons.
Qed.

(** ** Runs of spaces *)

Lemma spaceRun_app g s :
  allSpace g = true -> startsNonSpace s -> spaceRun (g ++ s) = length g.
Proof.
  unfold spaceRun, allSpace. intros Hg Hs. induction g as [|c g IH]; simpl in *.
  - destruct s as [|c s]; simpl; [done|]. by rewrite Hs.
  - apply andb_true_iff in Hg as [-> Hg]. by rewrite IH.
Qed.

Lemma spaceRun_nonspace c s : is_space c = false -> spaceRun (c :: s) = 0.
Proof. unfold spaceRun. simpl. by intros ->. Qed.

(** ** Segments *)


Lemma tokText_head t s :
  tokOk t = true ->
  exists c rest, tokText t ++ s = c :: rest /\ is_space c = false
    /\ (isPunctTok t = false -> is_tpunct c = false)
    /\ (isWordTok t = false -> is_word c = false).
Proof.
  destruct t as [c|w|c|]; simpl; intros H; [| | |done].
  - exists c, s. split_and!; try done.
    + by apply tpunct_not_space.
    + intros _. by apply tpunct_not_word.
  - destruct w as [|c w]; [done|]. simpl in H. apply andb_true_iff in H as [Hc _].
    exists c, (w ++ s). split_and!; try done.
    + by apply word_not_space.
    + intros _. destruct (is_tpunct c) eqn:E; [|done].
      apply tpunct_not_word in E. congruence.
  - apply andb_true_iff in H as [H H3]. apply andb_true_iff in H as [H1 H2].
    apply negb_true_iff in H1, H2, H3.
    exists c, s. split_and!; done.
Qed.

Lemma render_startsNonSpace_after afterWord g t rest :
  segOk afterWord ((g, t) :: rest) -> startsNonSpace (tokText t ++ render rest).
Proof.
  intros H. inversion H as [? ? Hg|? ? ? ? Hg Ht Hw Hr]; subst; simpl.
  - done.
  - destruct (tokText_head t (render rest) Ht) as (c & r & -> & Hc & _). done.
Qed.

Lemma segOk_nonempty afterWord items : segOk afterWord items -> items <> [].
Proof. by inversion 1. Qed.

Lemma segOk_weaken afterWord items :
  segOk afterWord items -> segOk false items.
Proof.
  inversion 1; subst; [by constructor|]. constructor; try done.
Qed.

Lemma tokText_nonspace t :
  tokOk t = true -> Forall (fun c => is_space c = false) (tokText t).
Proof.
  destruct t as [c|w|c|]; simpl; intros H; [| | |done].
  - repeat constructor. by apply tpunct_not_space.
  - apply andb_true_iff in H as [_ H]. rewrite forallb_forall in H.
    apply Forall_forall. intros c Hc. apply word_not_space, H. by apply list_elem_of_In.
  - repeat constructor. apply andb_true_iff in H as [H _].
    apply andb_true_iff in H as [H _]. by apply negb_true_iff in H.
Qed.

Lemma tokText_nonempty t : tokOk t = true -> tokText t <> [].
Proof. destruct t as [c|[|c w]|c|]; simpl; done. Qed.

(** The segments after a gap: a token that does not begin with a space,
    or the end of the text. *)
Lemma segOk_tail afterWord items :
  segOk afterWord items ->
  render items = firstGap items ++ renderTail items
  /\ allSpace (firstGap items) = true
  /\ startsNonSpace (renderTail items).
Proof.
  intros H. destruct H as [aw g Hg|aw g t rest Hg Ht Hw Hr]; simpl.
  - done.
  - split_and!; [done|done|].
    destruct (tokText_head t (render rest) Ht) as (c & r & -> & Hc & _). done.
Qed.

(** ** First step: runs of spaces *)

Lemma re_spaces_gap rep p g s :
  g <> [] -> allSpace g = true -> startsNonSpace s ->
  re_spaces rep p (g ++ s) = Some (length g, rep).
Proof.
  intros Hne Hg Hs. unfold re_spaces. rewrite spaceRun_app by done.
  destruct g; [done|]. done.
Qed.

Lemma re_spaces_nonspace rep p c s :
  is_space c = false -> re_spaces rep p (c :: s) = None.
Proof. intros Hc. unfold re_spaces. by rewrite spaceRun_nonspace. Qed.

Lemma spaces_gap p g s :
  allSpace g = true -> startsNonSpace s ->
  replaceAll_from (re_spaces (js " ")) p 0 (g ++ s)
  = squash g ++ replaceAll_from (re_spaces (js " ")) (lastOr p g) 0 s.
Proof.
  intros Hg Hs. destruct g as [|c g]; [done|].
  rewrite replaceAll_from_match with (rep := js " "); [done|done|].
  by apply re_spaces_gap.
Qed.

Lemma spaces_nonspace_run p a s :
  Forall (fun c => is_space c = false) a ->
  replaceAll_from (re_spaces (js " ")) p 0 (a ++ s)
  = a ++ replaceAll_from (re_spaces (js " ")) (lastOr p a) 0 s.
Proof.
  intros Ha. apply replaceAll_from_copy_run.
  intros q a1 c a2 -> _. apply re_spaces_nonspace.
  rewrite Forall_app, Forall_cons in Ha. tauto.
Qed.

Lemma spaces_render items : forall afterWord prev p,
  segOk afterWord items ->
  replaceAll_from (re_spaces (js " ")) p 0 (render items)
  = render (mapGaps gapSpaces prev items).
Proof.
  induction items as [|[g t] rest IH]; intros afterWord prev p H; [by inversion H|].
  inversion H as [? ? Hg|? ? ? ? Hg Ht Hw Hr]; subst.
  - simpl. rewrite app_nil_r. rewrite <- (app_nil_r g) at 1.
    rewrite spaces_gap by done. done.
  - cbn [render mapGaps]. unfold gapSpaces at 1.
    rewrite spaces_gap; [|done|by eapply render_startsNonSpace_after].
    rewrite spaces_nonspace_run by (by apply tokText_nonspace).
    f_equal. f_equal. by eapply IH.
Qed.

(** ** Second step: spaces around [*&<>,] *)

Lemma re_tpunct_nomatch p g c s :
  allSpace g = true -> is_space c = false -> is_tpunct c = false ->
  forall g1 d g2, g = g1 ++ d :: g2 -> re_tpunct p (d :: g2 ++ c :: s) = None.
Proof.
  intros Hg Hc Hp g1 d g2 ->. unfold re_tpunct.
  unfold allSpace in Hg. rewrite forallb_app in Hg. apply andb_true_iff in Hg as [_ Hg].
  change (d :: g2 ++ c :: s) with ((d :: g2) ++ c :: s).
  rewrite spaceRun_app by done.
  rewrite drop_app_length. by rewrite Hp.
Qed.

Lemma re_tpunct_nomatch_end p g :
  allSpace g = true ->
  forall g1 d g2, g = g1 ++ d :: g2 -> re_tpunct p (d :: g2 ++ []) = None.
Proof.
  intros Hg g1 d g2 ->. unfold re_tpunct.
  unfold allSpace in Hg. rewrite forallb_app in Hg. apply andb_true_iff in Hg as [_ Hg].
  change (d :: g2 ++ []) with ((d :: g2) ++ []).
  rewrite spaceRun_app by done.
  by rewrite drop_app_length.
Qed.

(** A gap that is not followed by one of the characters is copied. *)
Lemma tpunct_gap_kept p g s :
  allSpace g = true ->
  match s with [] => True | c :: _ => is_space c = false /\ is_tpunct c = false end ->
  replaceAll_from re_tpunct p 0 (g ++ s)
  = g ++ replaceAll_from re_tpunct (lastOr p g) 0 s.
Proof.
  intros Hg Hs. apply replaceAll_from_copy_run.
  intros q g1 d g2 Heq _. destruct s as [|c s].
  - by eapply re_tpunct_nomatch_end.
  - destruct Hs. by eapply re_tpunct_nomatch.
Qed.

Lemma tpunct_char_kept p c s :
  is_space c = false -> is_tpunct c = false ->
  replaceAll_from re_tpunct p 0 (c :: s) = c :: replaceAll_from re_tpunct (Some c) 0 s.
Proof.
  intros Hc Hp. apply replaceAll_from_copy. unfold re_tpunct.
  rewrite spaceRun_nonspace by done. simpl. by rewrite Hp.
Qed.

Lemma tpunct_run_kept p a s :
  Forall (fun c => is_space c = false /\ is_tpunct c = false) a ->
  replaceAll_from re_tpunct p 0 (a ++ s)
  = a ++ replaceAll_from re_tpunct (lastOr p a) 0 s.
Proof.
  revert p. induction a as [|c a IH]; intros p Ha; [done|].
  inversion Ha as [|? ? [Hc Hp] Ha']; subst.
  change ((c :: a) ++ s) with (c :: (a ++ s)).
  rewrite tpunct_char_kept, IH by done. by rewrite lastOr_cons.
Qed.

(** One of the characters takes the spaces on both sides with it. *)
Lemma tpunct_taken p g c g' s :
  allSpace g = true -> is_tpunct c = true -> allSpace g' = true -> startsNonSpace s ->
  replaceAll_from re_tpunct p 0 (g ++ c :: g' ++ s)
  = c :: replaceAll_from re_tpunct (lastOr p (g ++ c :: g')) 0 s.
Proof.
  intros Hg Hc Hg' Hs.
  replace (g ++ c :: g' ++ s) with ((g ++ c :: g') ++ s) by (by rewrite <- app_assoc).
  rewrite replaceAll_from_match with (rep := [c]); [done|by destruct g|].
  unfold re_tpunct. rewrite <- app_assoc. simpl.
  rewrite spaceRun_app; [|done|simpl; by apply tpunct_not_space].
  rewrite drop_app_length, Hc, spaceRun_app by done.
  rewrite length_app. simpl. do 2 f_equal. lia.
Qed.

Lemma tokText_not_tpunct t :
  tokOk t = true -> isPunctTok t = false ->
  Forall (fun c => is_space c = false /\ is_tpunct c = false) (tokText t).
Proof.
  destruct t as [c|w|c|]; simpl; intros H Hp; [done| | |done].
  - apply andb_true_iff in H as [_ H]. rewrite forallb_forall in H.
    apply Forall_forall. intros c Hc. apply list_elem_of_In, H in Hc.
    split; [by apply word_not_space|].
    destruct (is_tpunct c) eqn:E; [|done]. apply tpunct_not_word in E. congruence.
  - apply andb_true_iff in H as [H H3]. apply andb_true_iff in H as [H1 H2].
    apply negb_true_iff in H1, H3. repeat constructor; done.
Qed.

Lemma tpunct_render items : forall afterWord prev p,
  segOk afterWord items ->
  (optb isPunctTok prev = false ->
     replaceAll_from re_tpunct p 0 (render items) = render (mapGaps gapPunct prev items))
  /\ (optb isPunctTok prev = true ->
     replaceAll_from re_tpunct p 0 (renderTail items)
     = render (mapGaps gapPunct prev items)).
Proof.
  induction items as [|[g t] rest IH]; intros afterWord prev p H; [by inversion H|].
  inversion H as [? ? Hg|? ? ? ? Hg Ht Hw Hr]; subst.
  - (* the end of the text *)
    cbn [render renderTail mapGaps tokText]. unfold gapPunct. split; intros ->; simpl.
    + rewrite !app_nil_r. rewrite <- (app_nil_r g) at 1.
      rewrite tpunct_gap_kept by done. simpl. by rewrite app_nil_r.
    + done.
  - destruct (segOk_tail _ _ Hr) as (Hrest & Hg' & Hs').
    assert (Htok : forall q,
      replaceAll_from re_tpunct q 0 (tokText t ++ render rest)
      = tokText t ++ render (mapGaps gapPunct (Some t) rest)
      /\ (isPunctTok t = true ->
          forall g0, allSpace g0 = true ->
            replaceAll_from re_tpunct q 0 (g0 ++ tokText t ++ render rest)
            = tokText t ++ render (mapGaps gapPunct (Some t) rest))).
    { intros q. destruct (isPunctTok t) eqn:Ep.
      - destruct t as [c| | |]; try done. simpl in Ht. simpl tokText.
        assert (Hall : forall g0, allSpace g0 = true ->
          replaceAll_from re_tpunct q 0 (g0 ++ [c] ++ render rest)
          = [c] ++ render (mapGaps gapPunct (Some (TPunct c)) rest)).
        { intros g0 Hg0. rewrite Hrest. simpl.
          rewrite tpunct_taken by done. f_equal.
          by apply (proj2 (IH _ (Some (TPunct c)) _ Hr)). }
        split; [apply (Hall []); done | intros _; apply Hall].
      - split; [|done].
        rewrite tpunct_run_kept by (by apply tokText_not_tpunct).
        f_equal. by apply (proj1 (IH _ (Some t) _ Hr)). }
    cbn [render renderTail mapGaps]. unfold gapPunct at 1 3.
    split; intros ->; simpl.
    + destruct (isPunctTok t) eqn:Ep.
      * by apply Htok.
      * destruct (tokText_head t (render rest) Ht) as (c & r & Heq & Hc & Hp & _).
        rewrite tpunct_gap_kept; [|done|rewrite Heq; auto].
        f_equal. apply Htok.
    + apply Htok.
Qed.

(** ** Third step: the space after [const] *)

Lemma startsWith_app lit s : startsWith lit s = true -> exists r, s = lit ++ r.
Proof.
  revert s. induction lit as [|a lit IH]; intros s H; simpl in *.
  - by exists s.
  - destruct s as [|b s]; [done|]. apply andb_true_iff in H as [Hab H].
    apply N.eqb_eq in Hab as ->. destruct (IH _ H) as [r ->]. by exists r.
Qed.

Lemma startsWith_refl_app lit r : startsWith lit (lit ++ r) = true.
Proof. induction lit as [|a lit IH]; simpl; [done|]. by rewrite N.eqb_refl. Qed.

Lemma re_const_not_c p c s : is_word c = false -> re_const p (c :: s) = None.
Proof.
  intros Hc. unfold re_const, wordLit.
  assert (startsWith (js "const") (c :: s) = false) as ->.
  { destruct (startsWith (js "const") (c :: s)) eqn:E; [|done].
    apply startsWith_app in E as [r Hr].
    change (js "const") with [99; 111; 110; 115; 116]%N in Hr.
    injection Hr as -> _. vm_compute in Hc. done. }
  by rewrite andb_false_r.
Qed.

Lemma re_const_after_word p s : is_word_opt p = true -> re_const p s = None.
Proof.
  intros Hp. unfold re_const, wordLit.
  destruct (startsWith (js "const") s) eqn:E; [|by rewrite andb_false_r].
  apply startsWith_app in E as [r ->]. unfold boundary. rewrite Hp. done.
Qed.

(** Inside a word the expression matches only at its first character, and
    only when the word is [const]. *)
Lemma re_const_word p w s :
  w <> [] -> forallb is_word w = true -> startsNonWord s -> w <> js "const" ->
  re_const p (w ++ s) = None.
Proof.
  intros Hne Hw Hs Hneq. unfold re_const.
  destruct (wordLit (js "const") p (w ++ s)) eqn:E; [|done]. exfalso.
  unfold wordLit in E. apply andb_true_iff in E as [E Hafter].
  apply andb_true_iff in E as [_ Hstart].
  apply startsWith_app in Hstart as [r Hr].
  assert (Hc : forallb is_word (js "const") = true) by done.
  (* compare [w] with the five characters *)
  destruct (decide (length w < 5)) as [Hlt|Hge].
  - (* the character after [w] would be a word character *)
    assert (Hs' : exists c s', s = c :: s' /\ is_word c = true).
    { apply (f_equal (drop (length w))) in Hr. rewrite drop_app_length in Hr.
      rewrite drop_app_le in Hr by (simpl; lia).
      destruct (drop (length w) (js "const")) as [|c l] eqn:Ed.
      - apply (f_equal length) in Ed. rewrite length_drop in Ed. simpl in Ed. lia.
      - exists c, (l ++ r). split; [done|].
        rewrite forallb_forall in Hc. apply Hc.
        rewrite <- (take_drop (length w) (js "const")), Ed.
        apply in_or_app. right. by left. }
    destruct Hs' as (c & s' & -> & Hcw). simpl in Hs. congruence.
  - assert (Hw5 : w = js "const" ++ drop 5 w).
    { rewrite <- (take_drop 5 w) at 1. f_equal.
      apply (f_equal (take 5)) in Hr. rewrite take_app_le in Hr by lia.
      rewrite Hr. by rewrite take_app_length'. }
    destruct (drop 5 w) as [|d w'] eqn:Ed.
    + rewrite app_nil_r in Hw5. done.
    + rewrite Hw5 in Hafter, Hw. rewrite <- app_assoc in Hafter.
      rewrite drop_app_length' in Hafter by done.
      rewrite forallb_app in Hw. apply andb_true_iff in Hw as [_ Hw].
      simpl in Hw. apply andb_true_iff in Hw as [Hd _].
      unfold boundary in Hafter. simpl in Hafter. rewrite Hd in Hafter. done.
Qed.

Lemma const_char_kept p c s :
  is_word c = false ->
  replaceAll_from re_const p 0 (c :: s) = c :: replaceAll_from re_const (Some c) 0 s.
Proof. intros Hc. apply replaceAll_from_copy. by apply re_const_not_c. Qed.

Lemma const_gap_kept p g s :
  allSpace g = true ->
  replaceAll_from re_const p 0 (g ++ s) = g ++ replaceAll_from re_const (lastOr p g) 0 s.
Proof.
  intros Hg. apply replaceAll_from_copy_run.
  intros q g1 d g2 -> _. apply re_const_not_c, space_not_word.
  unfold allSpace in Hg. rewrite forallb_app in Hg.
  apply andb_true_iff in Hg as [_ Hg]. simpl in Hg. by apply andb_true_iff in Hg as [Hd _].
Qed.

Lemma lastOr_word p w :
  forallb is_word w = true -> is_word_opt p = true -> is_word_opt (lastOr p w) = true.
Proof.
  revert p. induction w as [|c w IH]; intros p Hw Hp; [done|].
  simpl in Hw. apply andb_true_iff in Hw as [Hc Hw].
  rewrite lastOr_cons. by apply IH.
Qed.

Lemma lastOr_space p g :
  g <> [] -> allSpace g = true -> is_word_opt (lastOr p g) = false.
Proof.
  revert p. induction g as [|c g IH]; intros p Hne Hg; [done|].
  unfold allSpace in Hg. simpl in Hg. apply andb_true_iff in Hg as [Hc Hg].
  rewrite lastOr_cons. destruct g as [|d g].
  - simpl. by apply space_not_word.
  - by apply IH.
Qed.

Lemma lastOr_app p a b : lastOr p (a ++ b) = lastOr (lastOr p a) b.
Proof.
  revert p. induction a as [|c a IH]; intros p; [done|].
  change ((c :: a) ++ b) with (c :: (a ++ b)). by rewrite !lastOr_cons, IH.
Qed.

Lemma const_word_tail p w s :
  is_word_opt p = true -> forallb is_word w = true ->
  replaceAll_from re_const p 0 (w ++ s) = w ++ replaceAll_from re_const (lastOr p w) 0 s.
Proof.
  revert p. induction w as [|c w IH]; intros p Hp Hw; [done|].
  simpl in Hw. apply andb_true_iff in Hw as [Hc Hw].
  change ((c :: w) ++ s) with (c :: (w ++ s)).
  rewrite replaceAll_from_copy by (by apply re_const_after_word).
  rewrite IH, lastOr_cons by done. done.
Qed.

Lemma const_word_kept p w s :
  w <> [] -> forallb is_word w = true -> startsNonWord s -> w <> js "const" ->
  replaceAll_from re_const p 0 (w ++ s) = w ++ replaceAll_from re_const (lastOr p w) 0 s.
Proof.
  intros Hne Hw Hs Hneq. destruct w as [|c w]; [done|].
  pose proof (re_const_word p _ s Hne Hw Hs Hneq) as Hnone.
  simpl in Hw. apply andb_true_iff in Hw as [Hc Hw].
  change ((c :: w) ++ s) with (c :: (w ++ s)) in *.
  rewrite replaceAll_from_copy by done.
  rewrite const_word_tail, lastOr_cons by done. done.
Qed.

Lemma const_word_rewritten p g s :
  is_word_opt p = false -> allSpace g = true -> startsNonSpace s ->
  startsNonWord (g ++ s) ->
  replaceAll_from re_const p 0 (js "const" ++ g ++ s)
  = js "const " ++ replaceAll_from re_const (lastOr p (js "const" ++ g)) 0 s.
Proof.
  intros Hp Hg Hs Hnw.
  rewrite (app_assoc (js "const") g s).
  rewrite replaceAll_from_match with (rep := js "const "); [done|done|].
  rewrite <- app_assoc. unfold re_const.
  assert (wordLit (js "const") p (js "const" ++ g ++ s) = true) as ->.
  { unfold wordLit. rewrite startsWith_refl_app, drop_app_length.
    unfold boundary at 1. rewrite Hp. simpl.
    unfold boundary. simpl. destruct (g ++ s) as [|c r]; simpl; [done|].
    simpl in Hnw. by rewrite Hnw. }
  change (drop 5 (js "const" ++ g ++ s)) with (g ++ s).
  rewrite spaceRun_app by done. by rewrite length_app.
Qed.

Lemma segOk_after_word rest : segOk true rest -> startsNonWord (render rest).
Proof.
  intros H. inversion H as [? g Hg|? g t r Hg Ht Hw Hr]; subst; simpl.
  - rewrite app_nil_r. destruct g as [|c g]; simpl; [done|].
    unfold allSpace in Hg. simpl in Hg. apply andb_true_iff in Hg as [Hc _].
    by apply space_not_word.
  - destruct g as [|c g]; simpl.
    + destruct (isWordTok t) eqn:Et; [by destruct Hw|].
      destruct (tokText_head t (render r) Ht) as (c & s & -> & _ & _ & Hc).
      simpl. by apply Hc.
    + unfold allSpace in Hg. simpl in Hg. apply andb_true_iff in Hg as [Hc _].
      by apply space_not_word.
Qed.

Lemma segOk_first_not_word rest :
  segOk true rest -> firstGap rest = [] -> optb isWordTok (firstTok rest) = false.
Proof.
  intros H. inversion H as [? g Hg|? g t r Hg Ht Hw Hr]; subst; simpl; [done|].
  intros ->. destruct (isWordTok t); [by destruct Hw|done].
Qed.

Lemma const_render items : forall afterWord prev p,
  segOk afterWord items ->
  (optb isConstTok prev = false -> (is_word_opt p = true -> afterWord = true) ->
     replaceAll_from re_const p 0 (render items) = render (mapGaps gapConst prev items))
  /\ (optb isConstTok prev = true ->
      (is_word_opt p = true -> optb isWordTok (firstTok items) = false) ->
     js " " ++ replaceAll_from re_const p 0 (renderTail items)
     = render (mapGaps gapConst prev items)).
Proof.
  induction items as [|[g t] rest IH]; intros afterWord prev p H; [by inversion H|].
  inversion H as [? ? Hg|? ? ? ? Hg Ht Hw Hr]; subst.
  - cbn [render renderTail mapGaps tokText]. unfold gapConst.
    split; intros -> _; simpl; [|done].
    rewrite !app_nil_r. rewrite <- (app_nil_r g) at 1.
    rewrite const_gap_kept by done. simpl. by rewrite app_nil_r.
  - destruct (segOk_tail _ _ Hr) as (Hrest & Hg' & Hs').
    assert (Htok : forall q, (is_word_opt q = true -> isWordTok t = false) ->
      replaceAll_from re_const q 0 (tokText t ++ render rest)
      = tokText t ++ render (mapGaps gapConst (Some t) rest)).
    { intros q Hq. destruct t as [c|w|c|]; simpl in Ht; simpl tokText; [| | |done].
      - change ([c] ++ render rest) with (c :: render rest).
        rewrite const_char_kept by (by apply tpunct_not_word).
        f_equal. apply (proj1 (IH _ (Some (TPunct c)) _ Hr)); [done|].
        simpl. intros Hc. apply tpunct_not_word in Ht. congruence.
      - apply andb_true_iff in Ht as [Hne Hw'].
        assert (Hq' : is_word_opt q = false).
        { destruct (is_word_opt q); [|done]. by specialize (Hq eq_refl). }
        assert (Hw0 : w <> []) by (by destruct w).
        destruct (decide (w = js "const")) as [->|Hneq].
        + rewrite Hrest.
          rewrite const_word_rewritten; [|done|done|done|].
          2:{ rewrite <- Hrest. by apply segOk_after_word. }
          change (js "const ") with (js "const" ++ js " "). rewrite <- app_assoc.
          f_equal. apply (proj2 (IH _ (Some (TWord (js "const"))) _ Hr)); [done|].
          intros Hlast. destruct (decide (firstGap rest = [])) as [Hemp|Hnemp].
          * by apply segOk_first_not_word.
          * rewrite lastOr_app, lastOr_space in Hlast by done. done.
        + rewrite const_word_kept; [|done|done|by apply segOk_after_word|done].
          f_equal. apply (proj1 (IH _ (Some (TWord w)) _ Hr)); [|done].
          simpl. unfold eqs. by case_bool_decide.
      - apply andb_true_iff in Ht as [Ht H3]. apply andb_true_iff in Ht as [H1 H2].
        apply negb_true_iff in H1, H2, H3.
        change ([c] ++ render rest) with (c :: render rest).
        rewrite const_char_kept by done.
        f_equal. apply (proj1 (IH _ (Some (TOther c)) _ Hr)); [done|].
        simpl. congruence. }
    cbn [render renderTail mapGaps firstTok optb]. unfold gapConst at 1 3.
    split; intros -> Hp.
    + rewrite const_gap_kept by done. f_equal. apply Htok.
      intros Hlast. destruct g as [|c g].
      * simpl in Hlast. destruct (isWordTok t) eqn:Et; [|done].
        by destruct (Hw (Hp Hlast) eq_refl).
      * rewrite lastOr_space in Hlast by done. done.
    + by rewrite Htok.
Qed.

(** ** Fourth step: [trim] *)

Lemma trimStart_gap g s :
  allSpace g = true -> startsNonSpace s -> trimStart (g ++ s) = s.
Proof.
  intros Hg Hs. unfold trimStart. rewrite spaceRun_app by done.
  by rewrite drop_app_length.
Qed.

Lemma allSpace_rev g : allSpace g = true -> allSpace (rev g) = true.
Proof.
  unfold allSpace. rewrite !forallb_forall. intros H c Hc. apply H.
  by apply in_rev.
Qed.

Lemma trimEnd_gap s g :
  allSpace g = true -> startsNonSpace (rev s) -> trimEnd (s ++ g) = s.
Proof.
  intros Hg Hs. unfold trimEnd. rewrite rev_app_distr.
  rewrite trimStart_gap; [by rewrite rev_involutive|by apply allSpace_rev|done].
Qed.

Lemma tokText_rev_nonspace t pre :
  tokOk t = true -> startsNonSpace (rev (pre ++ tokText t)).
Proof.
  intros Ht. rewrite rev_app_distr.
  pose proof (tokText_nonspace t Ht) as Hall.
  pose proof (tokText_nonempty t Ht) as Hne.
  destruct (rev (tokText t)) as [|c r] eqn:E.
  - apply (f_equal (@rev N)) in E. rewrite rev_involutive in E. done.
  - simpl. rewrite Forall_forall in Hall. apply Hall.
    apply list_elem_of_In, in_rev. rewrite E. by left.
Qed.

Lemma trimEnd_render items : forall pre afterWord (prev : tok),
  startsNonSpace (rev pre) -> segOk afterWord items ->
  trimEnd (pre ++ render items) = pre ++ render (mapGaps gapTrim (Some prev) items).
Proof.
  induction items as [|[g t] rest IH]; intros pre afterWord prev Hpre H; [by inversion H|].
  inversion H as [? ? Hg|? ? ? ? Hg Ht Hw Hr]; subst.
  - simpl. rewrite !app_nil_r. by apply trimEnd_gap.
  - cbn [render mapGaps]. assert (gapTrim (Some prev) t g = g) as ->.
    { unfold gapTrim. by destruct t. }
    rewrite !app_assoc. rewrite <- (app_assoc pre g).
    rewrite (IH _ (isWordTok t) t); [done| |done].
    rewrite app_assoc. by apply tokText_rev_nonspace.
Qed.

Lemma trim_render items :
  segOk false items -> trim (render items) = render (mapGaps gapTrim None items).
Proof.
  intros H. inversion H as [? g Hg|? g t rest Hg Ht Hw Hr]; subst; unfold trim.
  - simpl. rewrite app_nil_r. rewrite <- (app_nil_r g) at 1.
    rewrite trimStart_gap by done. done.
  - cbn [render mapGaps]. rewrite trimStart_gap; [|done|].
    2:{ destruct (tokText_head t (render rest) Ht) as (c & s & -> & Hc & _). done. }
    unfold gapTrim at 1. simpl.
    rewrite (trimEnd_render _ _ (isWordTok t) t); [done| |done].
    apply (tokText_rev_nonspace t []). done.
Qed.

(** ** The steps keep segments well formed *)

Lemma mapGaps_segOk (f : gapfun) :
  (forall p t g, allSpace g = true -> allSpace (f p t g) = true) ->
  (forall p t g, optb isWordTok p = true -> isWordTok t = true -> g <> [] ->
                 f p t g <> []) ->
  forall items prev, segOk (optb isWordTok prev) items ->
                     segOk (optb isWordTok prev) (mapGaps f prev items).
Proof.
  intros Hsp Hne. induction items as [|[g t] rest IH]; intros prev H; [by inversion H|].
  inversion H as [? ? Hg|? ? ? ? Hg Ht Hw Hr]; subst.
  - simpl. constructor. by apply Hsp.
  - cbn [mapGaps]. constructor; [by apply Hsp|done| |by apply (IH (Some t))].
    intros Hp Hwt. apply Hne; [done|done|]. by apply Hw.
Qed.

Lemma squash_allSpace g : allSpace (squash g) = true.
Proof. by destruct g. Qed.

Lemma gapSpaces_segOk items prev :
  segOk (optb isWordTok prev) items ->
  segOk (optb isWordTok prev) (mapGaps gapSpaces prev items).
Proof.
  apply mapGaps_segOk.
  - intros. apply squash_allSpace.
  - intros p t g _ _ Hg. by destruct g.
Qed.

Lemma gapPunct_segOk items prev :
  segOk (optb isWordTok prev) items ->
  segOk (optb isWordTok prev) (mapGaps gapPunct prev items).
Proof.
  apply mapGaps_segOk; unfold gapPunct.
  - intros p t g Hg. by destruct (_ || _).
  - intros p t g Hp Ht Hg. destruct p as [[]|], t; done.
Qed.

Lemma gapConst_segOk items prev :
  segOk (optb isWordTok prev) items ->
  segOk (optb isWordTok prev) (mapGaps gapConst prev items).
Proof.
  apply mapGaps_segOk; unfold gapConst.
  - intros p t g Hg. by destruct (optb isConstTok p).
  - intros p t g Hp Ht Hg. by destruct (optb isConstTok p).
Qed.

Lemma gapTrim_segOk items prev :
  segOk (optb isWordTok prev) items ->
  segOk (optb isWordTok prev) (mapGaps gapTrim prev items).
Proof.
  apply mapGaps_segOk; unfold gapTrim.
  - intros p t g Hg. by destruct p, t.
  - intros p t g Hp Ht Hg. by destruct p, t.
Qed.

(** ** Every text has segments *)

Lemma segOk_after_any afterWord items :
  segOk false items ->
  (optb isWordTok (firstTok items) = true -> firstGap items <> []) ->
  segOk afterWord items.
Proof.
  intros H Hfirst. inversion H as [? g Hg|? g t rest Hg Ht Hw Hr]; subst.
  - by constructor.
  - constructor; try done. all: intros _ Hwt; by apply Hfirst.
Qed.

Lemma lexCons_render c items :
  items <> [] -> render (lexCons c items) = c :: render items.
Proof.
  intros Hne. unfold lexCons.
  destruct (is_space c); [by destruct items as [|[g t] rest]|].
  destruct (is_tpunct c); [done|].
  destruct (is_word c); [|done].
  by destruct items as [|[[|d g] [ | | | ]] rest].
Qed.

Lemma lexCons_segOk c items : segOk false items -> segOk false (lexCons c items).
Proof.
  intros H. unfold lexCons.
  destruct (is_space c) eqn:Es.
  { inversion H as [? g Hg|? g t rest Hg Ht Hw Hr]; subst.
    - constructor. unfold allSpace in *. simpl. by rewrite Es.
    - constructor; try done. unfold allSpace in *. simpl. by rewrite Es. }
  destruct (is_tpunct c) eqn:Ep.
  { constructor; try done. }
  destruct (is_word c) eqn:Ew.
  2:{ constructor; try done. simpl. by rewrite Es, Ew, Ep. }
  assert (Hc : tokOk (TWord [c]) = true) by (by simpl; rewrite Ew).
  assert (Hnew : (optb isWordTok (firstTok items) = true -> firstGap items <> []) ->
                 segOk false (([], TWord [c]) :: items)).
  { intros Hfirst. constructor; try done. by apply segOk_after_any. }
  destruct items as [|[[|d g] t] rest]; [by inversion H| |].
  - destruct t as [p|w|o|]; try (by apply Hnew).
    inversion H as [|? ? ? ? Hg Ht Hw Hr]; subst.
    simpl in Ht. apply andb_true_iff in Ht as [_ Ht].
    constructor; try done. simpl. by rewrite Ew, Ht.
  - by apply Hnew.
Qed.

Lemma lex_spec s : segOk false (lex s) /\ render (lex s) = s.
Proof.
  induction s as [|c s [IH1 IH2]]; simpl.
  - split; [by constructor|done].
  - split; [by apply lexCons_segOk|].
    rewrite lexCons_render, IH2; [done|]. by eapply segOk_nonempty.
Qed.

(** ** Composition of gap rewritings *)

Lemma mapGaps_compose (f h : gapfun) items : forall prev,
  mapGaps f prev (mapGaps h prev items)
  = mapGaps (fun p t g => f p t (h p t g)) prev items.
Proof.
  induction items as [|[g t] rest IH]; intros prev; simpl; [done|]. by rewrite IH.
Qed.

Lemma mapGaps_ext (f h : gapfun) items : forall prev,
  (forall p t g, f p t g = h p t g) -> mapGaps f prev items = mapGaps h prev items.
Proof.
  induction items as [|[g t] rest IH]; intros prev H; simpl; [done|].
  by rewrite H, IH.
Qed.

Lemma gapNormal_idem p t g : gapNormal p t (gapNormal p t g) = gapNormal p t g.
Proof.
  unfold gapNormal, gapTrim, gapConst, gapPunct, gapSpaces.
  destruct p as [q|]; [|done]. destruct t; try done;
    destruct (optb isConstTok (Some q)); try done;
    destruct (optb isPunctTok (Some q)); simpl; try done; by destruct g.
Qed.

Lemma normalizeType_render items :
  segOk false items ->
  normalizeType (render items) = render (mapGaps gapNormal None items)
  /\ segOk false (mapGaps gapNormal None items).
Proof.
  intros H. unfold normalizeType, replaceAll.
  pose proof (gapSpaces_segOk items None H) as H1.
  pose proof (gapPunct_segOk _ None H1) as H2.
  pose proof (gapConst_segOk _ None H2) as H3.
  pose proof (gapTrim_segOk _ None H3) as H4.
  rewrite (spaces_render items false None None H).
  rewrite (proj1 (tpunct_render _ false None None H1) eq_refl).
  rewrite (proj1 (const_render _ false None None H2) eq_refl) by done.
  rewrite (trim_render _ H3).
  rewrite !mapGaps_compose in *. done.
Qed.

(** C10.  [normalizeType] is idempotent, so the signature key built from
    normalized type spellings is the key built from the raw ones. *)
Theorem normalizeType_idempotent (type : jsstring) (methodName : jsstring)
    (paramTypes : list jsstring) :
  normalizeType (normalizeType type) = normalizeType type
  /\ createMethodKey methodName (map normalizeType paramTypes)
     = createMethodKey methodName paramTypes.
Proof.
  assert (Hidem : forall t, normalizeType (normalizeType t) = normalizeType t).
  { intros t. destruct (lex_spec t) as [Hok Ht].
    rewrite <- Ht.
    destruct (normalizeType_render _ Hok) as [-> Hok'].
    destruct (normalizeType_render _ Hok') as [-> _].
    rewrite mapGaps_compose. f_equal. apply mapGaps_ext. apply gapNormal_idem. }
  split; [apply Hidem|].
  unfold createMethodKey. do 3 f_equal.
  rewrite map_map. f_equal. apply map_ext. intros t. apply Hidem.
Qed.

(** [normalizeType] trims, so trimming its argument first changes nothing. *)
Lemma gapNormal_gapTrim p t g : gapNormal p t (gapTrim p t g) = gapNormal p t g.
Proof.
  unfold gapNormal, gapTrim, gapConst, gapPunct, gapSpaces.
  destruct p as [q|]; [|done]. by destruct t.
Qed.

Lemma normalizeType_trim (s : jsstring) : normalizeType (trim s) = normalizeType s.
Proof.
  destruct (lex_spec s) as [Hok Hs]. rewrite <- Hs.
  rewrite (trim_render _ Hok).
  destruct (normalizeType_render _ (gapTrim_segOk _ None Hok)) as [-> _].
  destruct (normalizeType_render _ Hok) as [-> _].
  rewrite mapGaps_compose. f_equal. apply mapGaps_ext. apply gapNormal_gapTrim.
Qed.

(** ** Fill cases of an overload group *)

(** ** Sorting *)

Lemma insertSorted_perm {A} (cmp : A -> A -> Z) x l :
  Permutation (insertSorted cmp x l) (x :: l).
Proof.
  induction l as [|y l IH]; simpl; [reflexivity|].
  destruct (cmp y x <=? 0)%Z; [|reflexivity].
  rewrite IH. apply perm_swap.
Qed.

Lemma sortWith_acc_perm {A} (cmp : A -> A -> Z) l acc :
  Permutation (fold_left (fun acc x => insertSorted cmp x acc) l acc) (acc ++ l).
Proof.
  revert acc. induction l as [|x l IH]; intros acc; simpl.
  - by rewrite app_nil_r.
  - rewrite IH, insertSorted_perm.
    change (x :: acc) with ([x] ++ acc).
    rewrite (Permutation_app_comm [x] acc), <- app_assoc. reflexivity.
Qed.

Lemma sortWith_perm {A} (cmp : A -> A -> Z) l : Permutation (sortWith cmp l) l.
Proof. unfold sortWith. by rewrite sortWith_acc_perm. Qed.

Lemma sortWith_In {A} (cmp : A -> A -> Z) l x : In x (sortWith cmp l) <-> In x l.
Proof.
  split; apply Permutation_in; [apply sortWith_perm | symmetry; apply sortWith_perm].
Qed.

Section SortByKey.
Context {A : Type} (key : A -> nat) (cmp : A -> A -> Z).
Hypothesis cmp_key : forall a b, cmp a b = (Z.of_nat (key a) - Z.of_nat (key b))%Z.

Lemma insertSorted_HdRel k x l :
  k <= key x -> HdRel le k (map key l) -> HdRel le k (map key (insertSorted cmp x l)).
Proof.
  intros Hk Hl. destruct l as [|y l]; simpl; [by constructor|].
  destruct (cmp y x <=? 0)%Z; simpl; constructor; [|done].
  by inversion Hl.
Qed.

Lemma insertSorted_sorted x l :
  Sorted le (map key l) -> Sorted le (map key (insertSorted cmp x l)).
Proof.
  induction l as [|y l IH]; simpl; intros Hs.
  - repeat constructor.
  - inversion Hs as [|? ? Hs' Hhd]; subst.
    destruct (cmp y x <=? 0)%Z eqn:E; simpl.
    + constructor; [by apply IH|].
      apply insertSorted_HdRel; [|done].
      rewrite cmp_key in E. lia.
    + constructor; [done|]. constructor. rewrite cmp_key in E. lia.
Qed.

Lemma sortWith_sorted l : Sorted le (map key (sortWith cmp l)).
Proof.
  unfold sortWith.
  assert (H : forall acc, Sorted le (map key acc) ->
    Sorted le (map key (fold_left (fun acc x => insertSorted cmp x acc) l acc))).
  { induction l as [|x l IH]; intros acc Hacc; simpl; [done|].
    apply IH, insertSorted_sorted, Hacc. }
  apply H. constructor.
Qed.
End SortByKey.

(** ** Required parameters *)

Lemma trailingDefaultCount_split r :
  exists a b, r = a ++ b /\ length a = trailingDefaultCount r
    /\ Forall (fun p => ap_defaultValue p <> None) a
    /\ match b with [] => True | p :: _ => ap_defaultValue p = None end.
Proof.
  induction r as [|p r (a & b & -> & Hl & Ha & Hb)]; simpl.
  - exists [], []. repeat split; constructor.
  - destruct (ap_defaultValue p) eqn:E.
    + exists (p :: a), b. repeat split; simpl; [congruence| |done].
      constructor; [congruence|done].
    + exists [], (p :: a ++ b). repeat split; [constructor|done].
Qed.

Lemma getRequiredParamCount_split params :
  exists pre suf, params = pre ++ suf /\ length pre = getRequiredParamCount params
    /\ Forall (fun p => ap_defaultValue p <> None) suf
    /\ match last pre with None => True | Some p => ap_defaultValue p = None end.
Proof.
  destruct (trailingDefaultCount_split (rev params)) as (a & b & Hr & Hl & Ha & Hb).
  exists (rev b), (rev a).
  assert (Hp : params = rev b ++ rev a).
  { rewrite <- rev_app_distr, <- Hr. by rewrite rev_involutive. }
  repeat split.
  - done.
  - unfold getRequiredParamCount. rewrite <- Hl.
    rewrite Hp at 1. rewrite length_app, !length_rev. lia.
  - by apply Forall_rev.
  - destruct b as [|p b]; simpl; [done|].
    by rewrite last_snoc.
Qed.

Lemma getRequiredParamCount_le params :
  getRequiredParamCount params <= length params.
Proof. unfold getRequiredParamCount. lia. Qed.

Lemma missing_have_defaults params n :
  getRequiredParamCount params <= n ->
  Forall (fun p => ap_defaultValue p <> None) (drop n params).
Proof.
  destruct (getRequiredParamCount_split params) as (pre & suf & Hp & Hl & Hs & _).
  intros Hn. rewrite Hp.
  rewrite drop_app_ge by lia.
  apply Forall_drop, Hs.
Qed.

Lemma existsb_hasNoDefault_false l :
  Forall (fun p => ap_defaultValue p <> None) l -> existsb hasNoDefault l = false.
Proof.
  induction 1 as [|p l Hp _ IH]; simpl; [done|].
  rewrite IH. unfold hasNoDefault. by destruct (ap_defaultValue p).
Qed.

(** ** Fill cases *)

Lemma fillCaseAt_In ranges ov n fc :
  getRequiredParamCount (ov_params ov) <= n ->
  In fc (fillCaseAt ranges ov n) <->
  acceptorCount ranges n = 1 /\
  fc = {| providedArgCount := n;
          defaultValues := map ap_defaultValue (drop n (ov_params ov)) |}.
Proof.
  intros Hn. unfold fillCaseAt.
  rewrite (existsb_hasNoDefault_false _ (missing_have_defaults _ _ Hn)).
  destruct (acceptorCount ranges n =? 1) eqn:E; simpl.
  - apply Nat.eqb_eq in E. intuition.
  - apply Nat.eqb_neq in E. intuition.
Qed.

Lemma fillCasesOfOverload_In ranges ov fc :
  In fc (fillCasesOfOverload ranges ov) <->
  exists n, getRequiredParamCount (ov_params ov) <= n < length (ov_params ov)
    /\ acceptorCount ranges n = 1
    /\ fc = {| providedArgCount := n;
               defaultValues := map ap_defaultValue (drop n (ov_params ov)) |}.
Proof.
  unfold fillCasesOfOverload. rewrite in_flat_map. simpl.
  pose proof (getRequiredParamCount_le (ov_params ov)) as Hle.
  split.
  - intros (n & Hin & Hfc). apply in_seq in Hin.
    apply fillCaseAt_In in Hfc; [|lia]. exists n. split; [lia|done].
  - intros (n & Hn & Hfc). exists n. split; [apply in_seq; lia|].
    apply fillCaseAt_In; [lia|done].
Qed.

Lemma fillCaseAt_count ranges ov n fc :
  In fc (fillCaseAt ranges ov n) -> providedArgCount fc = n /\ acceptorCount ranges n = 1.
Proof.
  unfold fillCaseAt.
  destruct (acceptorCount ranges n =? 1) eqn:E; simpl; [|done].
  apply Nat.eqb_eq in E.
  destruct (existsb _ _); simpl; [done|].
  intros [<-|[]]. done.
Qed.

Lemma fillCaseAt_counts_NoDup ranges ov ns :
  NoDup ns -> NoDup (map providedArgCount (flat_map (fillCaseAt ranges ov) ns)).
Proof.
  induction 1 as [|n ns Hn Hnd IH]; simpl; [constructor|].
  rewrite map_app. apply NoDup_app. split_and!.
  - unfold fillCaseAt. destruct (negb _); [constructor|].
    destruct (existsb _ _); simpl; repeat constructor. intros Hx; inversion Hx.
  - intros k Hk1 Hk2.
    apply list_elem_of_In, in_map_iff in Hk1 as (fc1 & <- & Hfc1).
    apply list_elem_of_In, in_map_iff in Hk2 as (fc2 & Hc & Hfc2).
    apply fillCaseAt_count in Hfc1 as [Hc1 _].
    apply in_flat_map in Hfc2 as (m & Hm & Hfc2).
    apply fillCaseAt_count in Hfc2 as [Hc2 _].
    apply Hn. apply list_elem_of_In. congruence.
  - done.
Qed.

Lemma acceptorCount_two l1 r1 l2 r2 n :
  accepts n r1 = true -> In r2 l2 -> accepts n r2 = true ->
  2 <= acceptorCount (l1 ++ r1 :: l2) n.
Proof.
  intros H1 Hin H2. unfold acceptorCount.
  rewrite filter_app, filter_cons_True by done.
  rewrite length_app. simpl.
  assert (0 < length (filter (fun range => accepts n range = true) l2)); [|lia].
  apply list_elem_of_In in Hin.
  assert (Hf : r2 ∈ filter (fun range => accepts n range = true) l2)
    by (apply list_elem_of_filter; done).
  destruct (filter _ l2); [inversion Hf | simpl; lia].
Qed.

Lemma fillCasesOfOverload_accepts ranges ov fc :
  In fc (fillCasesOfOverload ranges ov) ->
  accepts (providedArgCount fc) (overloadRange ov) = true
  /\ acceptorCount ranges (providedArgCount fc) = 1.
Proof.
  intros H. apply fillCasesOfOverload_In in H as (n & Hn & Hacc & ->). simpl.
  split; [|done]. unfold accepts, overloadRange. simpl.
  apply andb_true_iff. split; apply Nat.leb_le; lia.
Qed.

Lemma fill_counts_NoDup_suffix pre ovs :
  NoDup (map providedArgCount
           (flat_map (fillCasesOfOverload (map overloadRange (pre ++ ovs))) ovs)).
Proof.
  revert pre. induction ovs as [|ov ovs IH]; intros pre; simpl; [constructor|].
  rewrite map_app. apply NoDup_app. split_and!.
  - apply fillCaseAt_counts_NoDup. apply NoDup_ListNoDup, seq_NoDup.
  - intros k Hk1 Hk2.
    apply list_elem_of_In, in_map_iff in Hk1 as (fc1 & <- & Hfc1).
    apply list_elem_of_In, in_map_iff in Hk2 as (fc2 & Hc & Hfc2).
    apply fillCasesOfOverload_accepts in Hfc1 as [Ha1 Hone].
    apply in_flat_map in Hfc2 as (ov2 & Hov2 & Hfc2).
    apply fillCasesOfOverload_accepts in Hfc2 as [Ha2 _].
    rewrite Hc in Ha2.
    pose proof (acceptorCount_two (map overloadRange pre) (overloadRange ov)
                  (map overloadRange ovs) (overloadRange ov2) _ Ha1
                  (in_map _ _ _ Hov2) Ha2) as Htwo.
    rewrite map_app in Hone. simpl in Hone. lia.
  - replace (pre ++ ov :: ovs) with ((pre ++ [ov]) ++ ovs) by (by rewrite <- app_assoc).
    apply IH.
Qed.

Lemma fill_counts_NoDup overloads :
  NoDup (map providedArgCount (buildDefaultFillCasesForOverloads overloads)).
Proof.
  unfold buildDefaultFillCasesForOverloads.
  rewrite sortWith_perm.
  apply (fill_counts_NoDup_suffix [] overloads).
Qed.

Lemma buildDefaultFillCases_In overloads fc :
  In fc (buildDefaultFillCasesForOverloads overloads) <->
  exists ov, In ov overloads
    /\ getRequiredParamCount (ov_params ov) <= providedArgCount fc < length (ov_params ov)
    /\ acceptorCount (map overloadRange overloads) (providedArgCount fc) = 1
    /\ defaultValues fc = map ap_defaultValue (drop (providedArgCount fc) (ov_params ov)).
Proof.
  unfold buildDefaultFillCasesForOverloads.
  rewrite sortWith_In, in_flat_map.
  split.
  - intros (ov & Hov & Hfc). exists ov. split; [done|].
    apply fillCasesOfOverload_In in Hfc as (n & Hn & Hacc & ->). done.
  - intros (ov & Hov & Hn & Hacc & Hd). exists ov. split; [done|].
    apply fillCasesOfOverload_In. exists (providedArgCount fc).
    split_and!; [lia|lia|done|]. destruct fc; simpl in *; congruence.
Qed.

Lemma applyFillCases_none {A} cases (ofDefault : option jsstring -> A) args :
  (forall fc, In fc cases -> providedArgCount fc <> length args) ->
  applyFillCases cases ofDefault args = args.
Proof.
  induction cases as [|fc cases IH]; simpl; intros H; [done|].
  destruct (providedArgCount fc =? length args) eqn:E.
  - apply Nat.eqb_eq in E. exfalso. eapply H; eauto.
  - apply IH. intros fc' Hin. apply H. by right.
Qed.

Lemma firstTrailingDefaulted_required params :
  firstTrailingDefaulted params (getRequiredParamCount params).
Proof.
  destruct (getRequiredParamCount_split params) as (pre & suf & Hp & Hl & Hs & Hlast).
  split_and!.
  - apply getRequiredParamCount_le.
  - intros i p Hi Hlk.
    pose proof (missing_have_defaults params _ (Nat.le_refl _)) as Hall.
    rewrite Forall_forall in Hall. apply Hall.
    apply list_elem_of_lookup.
    exists (i - getRequiredParamCount params).
    rewrite lookup_drop. rewrite <- Hlk. f_equal. lia.
  - intros p Hk Hlk. rewrite <- Hl in Hlk, Hk.
    rewrite Hp, lookup_app_l in Hlk by lia.
    rewrite last_lookup in Hlast.
    replace (pred (length pre)) with (length pre - 1) in Hlast by lia.
    by rewrite Hlk in Hlast.
Qed.

Lemma Sorted_le_NoDup_lt l : Sorted le l -> NoDup l -> Sorted lt l.
Proof.
  induction 1 as [|a l Hs IH Hhd]; intros Hnd; [constructor|].
  apply NoDup_cons in Hnd as [Hnotin Hnd].
  constructor; [by apply IH|].
  destruct Hhd as [|b l Hab]; constructor.
  assert (a <> b) by (intros ->; apply Hnotin; left).
  lia.
Qed.

(** C1, amended.  For every overload group passed to
    [buildDefaultFillCasesForOverloads]: the minimum accepted argument
    count of each overload is [getRequiredParamCount] of its parameters,
    which is the index of its first trailing defaulted parameter, and its
    maximum is its parameter count.  A fill case is recorded exactly for
    the argument counts from an overload's minimum, included, up to its
    maximum, excluded, that exactly one overload of the group accepts; it
    records the default values of the remaining parameters of that
    overload, none of which is missing.  The list returned is sorted by
    ascending provided-argument count. *)
Theorem fill_cases_by_arity (overloads : list Overload) :
  let ranges := map overloadRange overloads in
  let cases := buildDefaultFillCasesForOverloads overloads in
  (forall ov, In ov overloads ->
     minArgs (overloadRange ov) = getRequiredParamCount (ov_params ov)
     /\ firstTrailingDefaulted (ov_params ov) (minArgs (overloadRange ov))
     /\ maxArgs (overloadRange ov) = length (ov_params ov))
  /\ (forall fc, In fc cases <->
        exists ov, In ov overloads
          /\ minArgs (overloadRange ov) <= providedArgCount fc < maxArgs (overloadRange ov)
          /\ acceptorCount ranges (providedArgCount fc) = 1
          /\ defaultValues fc
             = map ap_defaultValue (drop (providedArgCount fc) (ov_params ov)))
  /\ (forall fc, In fc cases -> Forall (fun d => d <> None) (defaultValues fc))
  /\ Sorted lt (map providedArgCount cases).
Proof.
  intros ranges cases. split_and!.
  - intros ov _. split_and!; [done| |done].
    apply firstTrailingDefaulted_required.
  - intros fc. apply buildDefaultFillCases_In.
  - intros fc Hfc. apply buildDefaultFillCases_In in Hfc as (ov & _ & Hn & _ & ->).
    apply Forall_forall. intros d Hd.
    apply list_elem_of_In, in_map_iff in Hd as (p & <- & Hp).
    pose proof (missing_have_defaults (ov_params ov) (providedArgCount fc) (proj1 Hn)) as Hall.
    rewrite Forall_forall in Hall. by apply Hall, list_elem_of_In.
  - apply Sorted_le_NoDup_lt; [|apply fill_counts_NoDup].
    apply sortWith_sorted. done.
Qed.

(** C1 as stated.  In scenario B the first overload has minimum 1 and
    maximum 2 and a fill case is recorded for one argument, which is not
    strictly between the two. *)
Lemma fill_case_at_minimum : ~ fillCasesStrictlyBetween scenarioB_overloads.
Proof.
  intros H. destruct (H 1) as [Hfwd _].
  destruct Hfwd as (ov & Hov & Hn & _).
  - vm_compute. by left.
  - destruct Hov as [<-|[<-|[]]]; vm_compute in Hn; lia.
Qed.

Example scenarioB_fill_cases :
  buildDefaultFillCasesForOverloads scenarioB_overloads
  = [ {| providedArgCount := 1; defaultValues := [Some (js "true")] |};
      {| providedArgCount := 4; defaultValues := [Some (js "true")] |} ].
Proof. vm_compute. reflexivity. Qed.

(** C2.  When more than one overload of a group accepts a provided
    argument count, no fill case has that count, the generated dispatcher
    leaves an argument list of that length as it is, and no two fill cases
    share a count. *)
Theorem ambiguous_count_not_filled (overloads : list Overload) (n : nat) :
  1 < acceptorCount (map overloadRange overloads) n ->
  let cases := buildDefaultFillCasesForOverloads overloads in
  (forall fc, In fc cases -> providedArgCount fc <> n)
  /\ (forall (A : Type) (ofDefault : option jsstring -> A) (args : list A),
        length args = n -> applyFillCases cases ofDefault args = args)
  /\ NoDup (map providedArgCount cases).
Proof.
  intros Hamb cases.
  assert (Hno : forall fc, In fc cases -> providedArgCount fc <> n).
  { intros fc Hfc Heq. apply buildDefaultFillCases_In in Hfc as (_ & _ & _ & Hone & _).
    rewrite Heq in Hone. lia. }
  split_and!; [done| |apply fill_counts_NoDup].
  intros A ofDefault args Hlen. apply applyFillCases_none.
  intros fc Hfc. rewrite Hlen. by apply Hno.
Qed.

Lemma ambiguous_count_not_filled_witness :
  1 < acceptorCount (map overloadRange ambiguousOverloads) 1
  /\ applyFillCases (buildDefaultFillCasesForOverloads ambiguousOverloads)
       (fun d => d) [Some (js "x")] = [Some (js "x")].
Proof.
  assert (H : 1 < acceptorCount (map overloadRange ambiguousOverloads) 1)
    by (vm_compute; lia).
  split; [exact H|].
  apply (ambiguous_count_not_filled ambiguousOverloads 1 H). reflexivity.
Defined.

(** ** Method groups *)

Lemma lookup_map {A B} (f : A -> B) (l : list A) (i : nat) :
  map f l !! i = f <$> l !! i.
Proof. revert i. induction l as [|x l IH]; intros [|i]; simpl; auto. Qed.

Lemma filter_none {A} (P : A -> Prop) `{forall x, Decision (P x)} (l : list A) :
  (forall x, In x l -> ~ P x) -> filter P l = [].
Proof.
  induction l as [|x l IH]; intros Hl; [done|].
  rewrite filter_cons_False by (apply Hl; by left).
  apply IH. intros y Hy. apply Hl. by right.
Qed.

Section Groups.
Variable typeMetadata : TypeMetadata.
Variable ignoreMethodsSet : gset jsstring.


Lemma grouped_nil : grouped typeMetadata [] [] ∅.
Proof.
  split.
  - intros c i. rewrite lookup_empty. split; [done|]. intros (g & Hg & _).
    by rewrite lookup_nil in Hg.
  - intros i g Hg. by rewrite lookup_nil in Hg.
  - intros m [].
  - intros (m1 & _ & [] & _).
Qed.

Lemma grouped_same_camel seen groups index i j g g' :
  grouped typeMetadata seen groups index ->
  groups !! i = Some g -> groups !! j = Some g' -> camelName g = camelName g' -> i = j.
Proof.
  intros H Hi Hj Hc.
  assert (Hii : index !! camelName g = Some i) by (apply (g_index _ _ _ _ H); eauto).
  assert (Hjj : index !! camelName g = Some j) by (apply (g_index _ _ _ _ H); eauto).
  congruence.
Qed.

Lemma filter_name_snoc_ne (seen : list Method) m n :
  m_name m <> n ->
  filter (fun x => m_name x = n) (seen ++ [m]) = filter (fun x => m_name x = n) seen.
Proof.
  intros Hne. rewrite filter_app, filter_cons_False by done.
  by rewrite filter_nil, app_nil_r.
Qed.

Lemma filter_name_snoc_eq (seen : list Method) m :
  filter (fun x => m_name x = m_name m) (seen ++ [m])
  = filter (fun x => m_name x = m_name m) seen ++ [m].
Proof. rewrite filter_app, filter_cons_True by done. by rewrite filter_nil. Qed.

(** A method joins the group of its source name. *)
Lemma grouped_push seen groups index m ref g :
  grouped typeMetadata seen groups index ->
  index !! toCamelCaseName (m_name m) = Some ref -> groups !! ref = Some g ->
  sourceMethodName g = m_name m ->
  grouped typeMetadata (seen ++ [m])
    (<[ref := pushOverload (makeOverload typeMetadata m) g]> groups) index.
Proof.
  intros H Hidx Hg Hsrc.
  assert (Hlt : ref < length groups) by (by eapply lookup_lt_Some).
  split.
  - intros c i. rewrite (g_index _ _ _ _ H). split.
    + intros (g0 & Hg0 & Hc). destruct (decide (i = ref)) as [->|Hne].
      * exists (pushOverload (makeOverload typeMetadata m) g).
        rewrite list_lookup_insert_eq by done.
        split; [done|]. simpl. congruence.
      * exists g0. by rewrite list_lookup_insert_ne.
    + intros (g0 & Hg0 & Hc). destruct (decide (i = ref)) as [->|Hne].
      * rewrite list_lookup_insert_eq in Hg0 by done. injection Hg0 as <-.
        exists g. done.
      * rewrite list_lookup_insert_ne in Hg0 by done. eauto.
  - intros i g0 Hg0. destruct (decide (i = ref)) as [->|Hne].
    + rewrite list_lookup_insert_eq in Hg0 by done. injection Hg0 as <-. simpl.
      destruct (g_group _ _ _ _ H _ _ Hg) as (Hc & Hov & _).
      split_and!; [done| |].
      * rewrite Hsrc, filter_name_snoc_eq, map_app, <- Hsrc, <- Hov. done.
      * exists m. split; [apply in_or_app; right; by left | done].
    + rewrite list_lookup_insert_ne in Hg0 by done.
      destruct (g_group _ _ _ _ H _ _ Hg0) as (Hc & Hov & m0 & Hm0 & Hn0).
      split_and!; [done| |].
      * rewrite filter_name_snoc_ne; [done|].
        intros Heq. apply Hne.
        eapply (grouped_same_camel _ _ _ _ _ _ _ H Hg0 Hg).
        destruct (g_group _ _ _ _ H _ _ Hg) as (Hc' & _).
        rewrite Hc, Hc'. congruence.
      * exists m0. split; [apply in_or_app; by left | done].
  - intros m0 Hm0. apply in_app_or in Hm0 as [Hm0|[<-|[]]].
    + destruct (g_placed _ _ _ _ H _ Hm0) as (g0 & Hin & Hn).
      apply list_elem_of_In, list_elem_of_lookup in Hin as [i Hi].
      destruct (decide (i = ref)) as [->|Hne].
      * exists (pushOverload (makeOverload typeMetadata m) g). split.
        -- apply list_elem_of_In, list_elem_of_lookup. exists ref.
           by rewrite list_lookup_insert_eq.
        -- simpl. congruence.
      * exists g0. split; [|done].
        apply list_elem_of_In, list_elem_of_lookup. exists i.
        by rewrite list_lookup_insert_ne.
    + exists (pushOverload (makeOverload typeMetadata m) g). split; [|done].
      apply list_elem_of_In, list_elem_of_lookup. exists ref.
      by rewrite list_lookup_insert_eq.
  - (* no collision *)
    assert (Hold : forall m0, In m0 seen ->
                              toCamelCaseName (m_name m0) = toCamelCaseName (m_name m) ->
                              m_name m0 = m_name m).
    { intros m0 Hm0 Hc.
      destruct (g_placed _ _ _ _ H _ Hm0) as (g0 & Hin & Hn).
      apply list_elem_of_In, list_elem_of_lookup in Hin as [i Hi].
      destruct (g_group _ _ _ _ H _ _ Hi) as (Hc0 & _).
      destruct (g_group _ _ _ _ H _ _ Hg) as (Hcg & _).
      assert (i = ref).
      { eapply (grouped_same_camel _ _ _ _ _ _ _ H Hi Hg). congruence. }
      subst i. congruence. }
    intros (m1 & m2 & H1 & H2 & Hne & Hc).
    apply in_app_or in H1 as [H1|[<-|[]]]; apply in_app_or in H2 as [H2|[<-|[]]].
    + apply (g_distinct _ _ _ _ H). by exists m1, m2.
    + apply Hne. by apply Hold.
    + apply Hne. symmetry. by apply Hold.
    + by apply Hne.
Qed.

(** A method whose toCamelCaseName name is new opens a group. *)
Lemma grouped_new seen groups index m :
  grouped typeMetadata seen groups index ->
  index !! toCamelCaseName (m_name m) = None ->
  grouped typeMetadata (seen ++ [m])
    (groups ++ [ {| camelName := toCamelCaseName (m_name m); sourceMethodName := m_name m;
                    overloads := [makeOverload typeMetadata m] |} ])
    (<[toCamelCaseName (m_name m) := length groups]> index).
Proof.
  intros H Hidx.
  assert (Hfresh : forall i g, groups !! i = Some g -> camelName g <> toCamelCaseName (m_name m)).
  { intros i g Hg Hc.
    assert (index !! toCamelCaseName (m_name m) = Some i) by (apply (g_index _ _ _ _ H); eauto).
    congruence. }
  assert (Hnew : forall m0, In m0 seen ->
                            toCamelCaseName (m_name m0) <> toCamelCaseName (m_name m)).
  { intros m0 Hm0 Hc.
    destruct (g_placed _ _ _ _ H _ Hm0) as (g0 & Hin & Hn).
    apply list_elem_of_In, list_elem_of_lookup in Hin as [i Hi].
    destruct (g_group _ _ _ _ H _ _ Hi) as (Hc0 & _).
    apply (Hfresh _ _ Hi). congruence. }
  split.
  - intros c i. split.
    + intros Hl. destruct (decide (toCamelCaseName (m_name m) = c)) as [<-|Hne].
      * rewrite lookup_insert_eq in Hl. injection Hl as <-.
        eexists. rewrite lookup_app_r, Nat.sub_diag by lia. simpl. done.
      * rewrite lookup_insert_ne in Hl by done.
        apply (g_index _ _ _ _ H) in Hl as (g & Hg & Hc).
        exists g. split; [|done]. by apply lookup_app_l_Some.
    + intros (g & Hg & Hc). apply lookup_app_Some in Hg as [Hg|[Hlen Hg]].
      * rewrite lookup_insert_ne; [apply (g_index _ _ _ _ H); eauto|].
        intros Heq. apply (Hfresh _ _ Hg). congruence.
      * destruct (i - length groups) as [|k] eqn:E; simpl in Hg; [|by destruct k].
        injection Hg as <-. simpl in Hc. subst c.
        rewrite lookup_insert_eq. f_equal. lia.
  - intros i g Hg. apply lookup_app_Some in Hg as [Hg|[Hlen Hg]].
    + destruct (g_group _ _ _ _ H _ _ Hg) as (Hc & Hov & m0 & Hm0 & Hn0).
      split_and!; [done| |].
      * rewrite filter_name_snoc_ne; [done|].
        intros Heq. apply (Hfresh _ _ Hg). rewrite Hc. congruence.
      * exists m0. split; [apply in_or_app; by left|done].
    + destruct (i - length groups) as [|k] eqn:E; simpl in Hg; [|by destruct k].
      injection Hg as <-. simpl. split_and!; [done| |].
      * rewrite filter_name_snoc_eq.
        assert (Hnone : filter (fun x => m_name x = m_name m) seen = []).
        { apply filter_none. intros m0 Hm0 Heq. apply (Hnew _ Hm0). congruence. }
        by rewrite Hnone.
      * exists m. split; [apply in_or_app; right; by left|done].
  - intros m0 Hm0. apply in_app_or in Hm0 as [Hm0|[<-|[]]].
    + destruct (g_placed _ _ _ _ H _ Hm0) as (g0 & Hin & Hn).
      exists g0. split; [apply in_or_app; by left|done].
    + eexists. split; [apply in_or_app; right; by left|done].
  - intros (m1 & m2 & H1 & H2 & Hne & Hc).
    apply in_app_or in H1 as [H1|[<-|[]]]; apply in_app_or in H2 as [H2|[<-|[]]].
    + apply (g_distinct _ _ _ _ H). by exists m1, m2.
    + by apply (Hnew _ H1).
    + by apply (Hnew _ H2).
    + by apply Hne.
Qed.

Lemma namesCollide_mono (l l' : list Method) :
  (forall m, In m l -> In m l') -> namesCollide l -> namesCollide l'.
Proof. intros Hsub (m1 & m2 & H1 & H2 & H). exists m1, m2. auto. Qed.

Lemma notIgnored_cons m rest :
  notIgnored ignoreMethodsSet (m :: rest)
  = if bool_decide (m_name m ∈ ignoreMethodsSet)
    then notIgnored ignoreMethodsSet rest
    else m :: notIgnored ignoreMethodsSet rest.
Proof.
  unfold notIgnored. case_bool_decide.
  - by rewrite filter_cons_False by tauto.
  - by rewrite filter_cons_True.
Qed.

Lemma buildApiMethods_loop_spec rest : forall seen groups index,
  grouped typeMetadata seen groups index ->
  match buildApiMethods_loop typeMetadata ignoreMethodsSet rest groups index with
  | Throw _ => namesCollide (seen ++ notIgnored ignoreMethodsSet rest)
  | Ok groups' =>
      exists index', grouped typeMetadata (seen ++ notIgnored ignoreMethodsSet rest) groups' index'
  end.
Proof.
  induction rest as [|m rest IH]; intros seen groups index H; simpl.
  - exists index. unfold notIgnored. by rewrite filter_nil, app_nil_r.
  - rewrite notIgnored_cons. case_bool_decide as Hign; [by apply IH|].
    replace (seen ++ m :: notIgnored ignoreMethodsSet rest)
      with ((seen ++ [m]) ++ notIgnored ignoreMethodsSet rest)
      by (by rewrite <- app_assoc).
    destruct (index !! toCamelCaseName (m_name m)) as [ref|] eqn:Hidx; simpl.
    + destruct (proj1 (g_index _ _ _ _ H _ _) Hidx) as (g & Hg & Hc).
      rewrite Hg. simpl. unfold eqs. case_bool_decide as Hsrc; simpl.
      * apply IH. by apply grouped_push.
      * destruct (g_group _ _ _ _ H _ _ Hg) as (Hcg & _ & m0 & Hm0 & Hn0).
        exists m0, m. split_and!.
        -- apply in_or_app; left. apply in_or_app; by left.
        -- apply in_or_app; left. apply in_or_app; right; by left.
        -- congruence.
        -- congruence.
    + apply IH. by apply grouped_new.
Qed.

End Groups.

(** C3.  [buildApiMethods] throws exactly when two methods that are not
    ignored have distinct source names and the same camel name.  When it
    returns, the groups have pairwise distinct source names, every method
    that is not ignored has the group of its source name, and a group
    holds, in order, the overloads of exactly the methods of its source
    name: every such method is in one group and methods of one name share
    it. *)
Theorem buildApiMethods_groups (methods : list Method) (typeMetadata : TypeMetadata)
    (ignoreMethodsSet : gset jsstring) :
  let kept := notIgnored ignoreMethodsSet methods in
  match buildApiMethods methods typeMetadata ignoreMethodsSet with
  | Throw _ => namesCollide kept
  | Ok groups =>
      ~ namesCollide kept
      /\ NoDup (map sourceMethodName groups)
      /\ (forall m, In m kept -> exists g, In g groups /\ sourceMethodName g = m_name m)
      /\ (forall g, In g groups ->
            camelName g = toCamelCaseName (sourceMethodName g)
            /\ overloads g
               = map (makeOverload typeMetadata)
                     (filter (fun m => m_name m = sourceMethodName g) kept))
  end.
Proof.
  intros kept. unfold buildApiMethods.
  pose proof (buildApiMethods_loop_spec typeMetadata ignoreMethodsSet methods
                [] [] ∅ (grouped_nil _)) as H.
  simpl in H. fold kept in H.
  destruct (buildApiMethods_loop _ _ _ _ _) as [groups|msg]; [|done].
  destruct H as (index & H). split_and!.
  - apply (g_distinct _ _ _ _ H).
  - apply NoDup_alt. intros i j n Hi Hj.
    rewrite lookup_map in Hi, Hj.
    destruct (groups !! i) as [gi|] eqn:Egi; [|done].
    destruct (groups !! j) as [gj|] eqn:Egj; [|done].
    simpl in Hi, Hj. injection Hi as Hi. injection Hj as Hj.
    eapply (grouped_same_camel _ _ _ _ _ _ _ _ H Egi Egj).
    destruct (g_group _ _ _ _ H _ _ Egi) as (-> & _).
    destruct (g_group _ _ _ _ H _ _ Egj) as (-> & _). congruence.
  - apply (g_placed _ _ _ _ H).
  - intros g Hg. apply list_elem_of_In, list_elem_of_lookup in Hg as [i Hi].
    destruct (g_group _ _ _ _ H _ _ Hi) as (Hc & Hov & _). done.
Qed.

(** ** Enumerators *)




Lemma rederive_length previous explicit :
  length (rederive previous explicit) = length explicit.
Proof. revert previous. induction explicit; intros; simpl; auto. Qed.



Example scenarioC_members :
  extractEnumMembers scenarioC
  = [ {| em_name := js "tA"; em_value := 0 |};
      {| em_name := js "tB"; em_value := 1 |};
      {| em_name := js "tC"; em_value := 2 |} ].
Proof. vm_compute. reflexivity. Qed.

(** ** Return types *)

Lemma indexOfChar_spec c s :
  match indexOfChar c s with
  | Some i => s !! i = Some c /\ forall j, j < i -> s !! j <> Some c
  | None => forall j, s !! j <> Some c
  end.
Proof.
  induction s as [|x s IH]; simpl; [by intros j|].
  destruct (x =? c)%N eqn:E.
  - apply N.eqb_eq in E as ->. split; [done|]. intros j Hj. lia.
  - apply N.eqb_neq in E. destruct (indexOfChar c s) as [i|]; simpl.
    + destruct IH as [Hi Hbefore]. split; [done|].
      intros [|j] Hj; simpl; [congruence|]. apply Hbefore. lia.
    + intros [|j]; simpl; [congruence|]. apply IH.
Qed.

Lemma indexOfChar_least c s i :
  s !! i = Some c -> (forall j, j < i -> s !! j <> Some c) -> indexOfChar c s = Some i.
Proof.
  intros Hi Hbefore. pose proof (indexOfChar_spec c s) as H.
  destruct (indexOfChar c s) as [k|]; [|by destruct (H i)].
  destruct H as [Hk Hkbefore]. f_equal.
  destruct (Nat.lt_trichotomy k i) as [Hlt|[->|Hgt]]; [|done|].
  - by destruct (Hbefore k Hlt).
  - by destruct (Hkbefore i Hgt).
Qed.

Lemma extractPublicMethods_loop_spec children : forall currentAccess,
  extractPublicMethods_loop currentAccess children
  = map (fun child => extractMethod child (inferReturnType child))
        (List.filter (fun child => nonEmpty (inferReturnType child))
                     (publicMethodNodes_from currentAccess children)).
Proof.
  induction children as [|child rest IH]; intros currentAccess; simpl; [done|].
  destruct (kindIs "AccessSpecDecl" child); [apply IH|].
  destruct (isPublicMethodNode child currentAccess); simpl; [|apply IH].
  destruct (inferReturnType child) eqn:E; simpl; [apply IH|].
  f_equal; [by rewrite E | apply IH].
Qed.

(** C5, amended.  The return type of a method node is the normalized
    text before the first opening parenthesis of its type signature,
    wherever that parenthesis stands, and it is empty when the node has no
    signature or the signature has no parenthesis.
    [extractPublicMethodsFromClass] is total and returns, in order, the
    public method nodes whose return type is not empty: the others are
    left out and nothing is thrown. *)
Theorem return_type_and_skipped_methods (classNode : node) :
  (forall methodNode, qualType methodNode = None -> inferReturnType methodNode = [])
  /\ (forall methodNode functionType,
        qualType methodNode = Some functionType ->
        ((forall j, functionType !! j <> Some 40%N) -> inferReturnType methodNode = [])
        /\ (forall i, functionType !! i = Some 40%N ->
                      (forall j, j < i -> functionType !! j <> Some 40%N) ->
                      inferReturnType methodNode
                      = normalizeType (sliceTo i functionType)))
  /\ extractPublicMethodsFromClass classNode
     = map (fun child => extractMethod child (inferReturnType child))
           (List.filter (fun child => nonEmpty (inferReturnType child))
                        (publicMethodNodes classNode))
  /\ map m_returnType (extractPublicMethodsFromClass classNode)
     = List.filter nonEmpty (map inferReturnType (publicMethodNodes classNode)).
Proof.
  split; [|split; [|split]].
  - intros methodNode Hq. unfold inferReturnType. by rewrite Hq.
  - intros methodNode functionType Hq. unfold inferReturnType. rewrite Hq. simpl. split.
    + intros Hnone. pose proof (indexOfChar_spec 40 functionType) as H.
      destruct (indexOfChar 40 functionType) as [i|]; [|done].
      destruct H as [Hi _]. by destruct (Hnone i).
    + intros i Hi Hbefore. rewrite (indexOfChar_least _ _ _ Hi Hbefore).
      apply normalizeType_trim.
  - apply extractPublicMethods_loop_spec.
  - unfold extractPublicMethodsFromClass, publicMethodNodes.
    rewrite extractPublicMethods_loop_spec.
    induction (publicMethodNodes_from (js "private") (inner classNode)) as [|c l IH];
      simpl; [done|].
    destruct (nonEmpty (inferReturnType c)); simpl; [f_equal|]; apply IH.
Qed.

(** C5 as stated.  In the signature [std::function<void (int)> ()] the
    first parenthesis stands inside the template brackets; the first
    top-level one is at position 26.  The return type computed is
    [std::function<void], not the text before the parameter list. *)
Lemma nested_parenthesis_cuts_return_type :
  firstTopLevelParen (js "std::function<void (int)> ()") = Some 26
  /\ returnTypeBeforeTopLevelParen (js "std::function<void (int)> ()")
     = js "std::function<void (int)>"
  /\ inferReturnType callbackGetter = js "std::function<void"
  /\ inferReturnType callbackGetter
     <> returnTypeBeforeTopLevelParen (default [] (qualType callbackGetter)).
Proof. split_and!; [by vm_compute..|]. vm_compute. discriminate. Qed.

Example scenarioA_extracted : extractPublicMethodsFromClass scenarioA_class = scenarioA.
Proof. vm_compute. reflexivity. Qed.

(** ** Acquisition of the AST *)

Section AcquisitionFacts.
Context {Number : Type}.
Variable isZeroOrNaN : Number -> bool.
Variable JSON_parse : jsstring -> option (json (Number:=Number)).

Lemma slice_chunk (trimmed chunk rest : jsstring) from ch :
  drop from trimmed = chunk ++ ch :: rest ->
  slice from (from + length chunk + 1) trimmed = chunk ++ [ch].
Proof.
  intros H. unfold slice. rewrite H.
  replace (from + length chunk + 1 - from) with (length (chunk ++ [ch]))
    by (rewrite length_app; simpl; lia).
  replace (chunk ++ ch :: rest) with ((chunk ++ [ch]) ++ rest)
    by (by rewrite <- app_assoc).
  by rewrite take_app_length.
Qed.

Lemma scanDocuments_split (trimmed : jsstring) :
  forall (rest : jsstring) (index : nat) (st : ScanState) (mode : SplitMode),
    drop index trimmed = rest ->
    scanMatches trimmed index rest st mode ->
    scanDocuments JSON_parse trimmed index rest st
    = (fun found => docs st ++ found)
        <$> parseAll JSON_parse (topLevelObjects_from mode rest).
Proof.
  induction rest as [|ch rest IH]; intros index st mode Hdrop Hm.
  - simpl. destruct mode as [|chunk level [| |]]; simpl; by rewrite app_nil_r.
  - assert (Hnext : drop (S index) trimmed = rest).
    { replace (S index) with (index + 1) by lia.
      rewrite <- drop_drop, Hdrop. done. }
    destruct mode as [|chunk level str]; simpl in Hm.
    + (* outside an object *)
      simpl. rewrite Hm.
      destruct (ch =? LBRACE)%N eqn:E.
      * rewrite (IH (S index) _ (Inside [ch] 0 Plain) Hnext); [done|].
        exists index. simpl. rewrite Hdrop. split_and!; try done; lia.
      * by rewrite (IH (S index) st Outside Hnext).
    + destruct Hm as (from & Hstart & Hfrom & Hidx & Hdepth & Hstr).
      assert (Hfrom' : drop from trimmed = (chunk ++ [ch]) ++ rest)
        by (by rewrite <- app_assoc).
      assert (Hidx' : S index = from + length (chunk ++ [ch]))
        by (rewrite length_app; simpl; lia).
      simpl scanDocuments. rewrite Hstart.
      destruct str; simpl in Hstr; destruct Hstr as [Hin Hesc];
        rewrite Hin; simpl topLevelObjects_from.
      * (* plain text of the object *)
        destruct (ch =? QUOTE)%N eqn:EQ.
        { rewrite (IH (S index) _ (Inside (chunk ++ [ch]) level InString) Hnext); [done|].
          exists from. simpl. split_and!; done. }
        destruct (ch =? LBRACE)%N eqn:EL.
        { rewrite (IH (S index) _ (Inside (chunk ++ [ch]) (S level) Plain) Hnext); [done|].
          exists from. simpl. split_and!; try done. rewrite Hdepth. lia. }
        destruct (ch =? RBRACE)%N eqn:ER.
        { rewrite Hdepth. destruct level as [|level].
          - simpl. replace (index + 1) with (from + length chunk + 1) by lia.
            rewrite (slice_chunk _ _ _ _ _ Hfrom).
            destruct (JSON_parse (chunk ++ [ch])) as [doc|]; simpl; [|done].
            rewrite (IH (S index) _ Outside Hnext); [|done]. simpl.
            destruct (parseAll JSON_parse (topLevelObjects_from Outside rest));
              simpl; [|done].
            by rewrite <- app_assoc.
          - replace (Z.of_nat (S level) + 1 - 1 =? 0)%Z with false
              by (symmetry; apply Z.eqb_neq; lia).
            rewrite (IH (S index) _ (Inside (chunk ++ [ch]) level Plain) Hnext); [done|].
            exists from. simpl. split_and!; try done. lia. }
        rewrite (IH (S index) st (Inside (chunk ++ [ch]) level Plain) Hnext); [done|].
        exists from. split_and!; done.
      * (* inside a string *)
        rewrite Hesc.
        destruct (ch =? BACKSLASH)%N eqn:EB.
        { rewrite (IH (S index) _ (Inside (chunk ++ [ch]) level InEscape) Hnext); [done|].
          exists from. simpl. split_and!; done. }
        destruct (ch =? QUOTE)%N eqn:EQ.
        { rewrite (IH (S index) _ (Inside (chunk ++ [ch]) level Plain) Hnext); [done|].
          exists from. simpl. split_and!; done. }
        rewrite (IH (S index) st (Inside (chunk ++ [ch]) level InString) Hnext); [done|].
        exists from. split_and!; done.
      * (* after a backslash *)
        rewrite Hesc.
        rewrite (IH (S index) _ (Inside (chunk ++ [ch]) level InString) Hnext); [done|].
        exists from. simpl. split_and!; done.
Qed.

Lemma scanDocuments_topLevelObjects (trimmed : jsstring) :
  scanDocuments JSON_parse trimmed 0 trimmed initialScan
  = parseAll JSON_parse (topLevelObjects trimmed).
Proof.
  rewrite (scanDocuments_split trimmed trimmed 0 initialScan Outside); [|done|done].
  simpl. by destruct (parseAll _ _).
Qed.

(** C7, amended.  [parseClangJsonOutput] returns [null] for a blank
    output and the document of the whole trimmed output when that parses.
    Otherwise the output is split into its top-level objects; when every
    chunk parses, the result is [null] for no chunk, the document for one,
    and a [ClangAstDocumentSet] node holding the documents in order for
    more; when a chunk does not parse, the result is [null]. *)
Theorem parseClangJsonOutput_strategies (output : jsstring) :
  parseClangJsonOutput JSON_parse output
  = match trim output with
    | [] => JNull
    | trimmed =>
        match JSON_parse trimmed with
        | Some document => document
        | None =>
            match parseAll JSON_parse (topLevelObjects trimmed) with
            | None => JNull
            | Some [] => JNull
            | Some [document] => document
            | Some documents => documentSet documents
            end
        end
    end.
Proof.
  unfold parseClangJsonOutput.
  destruct (trim output) as [|c t]; [done|].
  destruct (JSON_parse (c :: t)); [done|].
  by rewrite scanDocuments_topLevelObjects.
Qed.

Lemma parseAll_none_parsed chunks :
  parsedChunks JSON_parse chunks = [] ->
  parseAll JSON_parse chunks = None \/ parseAll JSON_parse chunks = Some [].
Proof.
  destruct chunks as [|chunk rest]; simpl; [by right|].
  unfold parsedChunks. simpl. destruct (JSON_parse chunk); [done|by left].
Qed.

Lemma unparsable_null output :
  parsable JSON_parse output = false -> parseClangJsonOutput JSON_parse output = JNull.
Proof.
  rewrite parseClangJsonOutput_strategies. unfold parsable.
  destruct (trim output) as [|c t]; [done|].
  destruct (JSON_parse (c :: t)); [done|].
  destruct (parsedChunks JSON_parse (topLevelObjects (c :: t))) eqn:E; [|done].
  intros _. by destruct (parseAll_none_parsed _ E) as [-> | ->].
Qed.

Variable spawnSync : jsstring -> list jsstring -> SpawnResult.
Variable JSBSIM_SRC_DIR : jsstring.

Lemma tryCompilers_find candidates args :
  let parse := parseClangJsonOutput JSON_parse in
  let usable := fun result =>
    succeeded result && truthy isZeroOrNaN (parse (sr_stdout result)) in
  tryCompilers isZeroOrNaN JSON_parse spawnSync candidates args
  = match List.find usable (map (fun compiler => spawnSync compiler args) candidates) with
    | Some result => parse (sr_stdout result)
    | None => JNull
    end.
Proof.
  intros parse usable. induction candidates as [|compiler rest IH]; simpl; [done|].
  unfold usable at 1. destruct (succeeded (spawnSync compiler args)); simpl; [|done].
  fold parse. destruct (truthy isZeroOrNaN (parse _)); simpl; done.
Qed.

(** C6, amended.  [runClangAstDumpFromFile] never throws.  The
    candidates are [clang++] and [clang], in that order, and the result is
    the parsed document of the first one that runs without error, exits
    with status 0 and whose parsed document is truthy; it is [null] when
    there is none, in particular when every candidate fails to run, exits
    with another status or prints an output that neither strategy
    parses. *)
Theorem runClangAstDumpFromFile_first_usable (sourcePath : jsstring)
    (filter : option jsstring) :
  let args := clangArgs JSBSIM_SRC_DIR sourcePath filter in
  let parse := parseClangJsonOutput JSON_parse in
  let usable := fun result =>
    succeeded result && truthy isZeroOrNaN (parse (sr_stdout result)) in
  let returned :=
    runClangAstDumpFromFile isZeroOrNaN JSON_parse spawnSync JSBSIM_SRC_DIR
      sourcePath filter in
  compilers = [js "clang++"; js "clang"]
  /\ returned
     = match firstCandidate spawnSync usable args with
       | Some result => parse (sr_stdout result)
       | None => JNull
       end
  /\ ((forall compiler, In compiler compilers ->
         let result := spawnSync compiler args in
         sr_error result = true \/ sr_status result <> Some 0%Z
         \/ parsable JSON_parse (sr_stdout result) = false) ->
      returned = JNull).
Proof.
  intros args parse usable returned.
  assert (Hfind : returned
     = match firstCandidate spawnSync usable args with
       | Some result => parse (sr_stdout result)
       | None => JNull
       end) by apply tryCompilers_find.
  split; [done|]. split; [done|].
  intros Hfail. rewrite Hfind. unfold firstCandidate.
  destruct (List.find usable _) as [result|] eqn:E; [|done].
  apply find_some in E as [Hin Huse].
  apply in_map_iff in Hin as (compiler & <- & Hc).
  unfold usable in Huse. apply andb_true_iff in Huse as [Hok Htruthy].
  unfold succeeded in Hok. apply andb_true_iff in Hok as [Herr Hstatus].
  apply bool_decide_eq_true in Hstatus.
  destruct (Hfail compiler Hc) as [He|[Hs|Hp]].
  - fold args in Herr. rewrite He in Herr. done.
  - done.
  - apply unparsable_null in Hp. fold parse args in Hp. rewrite Hp in Htruthy. done.
Qed.

End AcquisitionFacts.

(** C7 as stated.  The output [{}{x}] does not parse as a whole, its
    first chunk parses and its second does not: one document is found, yet
    the result is [null] and not that document. *)
Lemma failed_chunk_discards_documents :
  parseClangJsonOutput stubParse (js "{}{x}") <> parseByCount stubParse (js "{}{x}").
Proof. vm_compute. discriminate. Qed.

(** C6 as stated.  [clang++] succeeds and prints [0], which parses, and
    [clang] cannot be run: the first candidate that succeeds with a
    parsable output does not determine the result, which is [null]. *)
Lemma falsy_document_is_skipped :
  let args := clangArgs (js "vendor/jsbsim/src") (js "probe.cpp") None in
  let parse := parseClangJsonOutput stubParse in
  runClangAstDumpFromFile (Z.eqb 0) stubParse stubSpawn (js "vendor/jsbsim/src")
    (js "probe.cpp") None
  <> match firstCandidate stubSpawn
             (fun result => succeeded result && parsable stubParse (sr_stdout result))
             args with
     | Some result => parse (sr_stdout result)
     | None => JNull
     end.
Proof. vm_compute. discriminate. Qed.

(** ** Scenarios A and E *)

(** C8, amended.  For a class declaring [void Run()] and [bool RunIC()]
    the raw interface holds [Run(): void] and [RunIC(): boolean], under the
    source names, and the wrapper class holds the methods [run()] and
    [runIc()], which forward to [this.exec.Run()] and [this.exec.RunIC()]
    with no argument. *)
Theorem scenarioA_outputs (localeCompare : jsstring -> jsstring -> Z) :
  map toCamelCaseName (map m_name scenarioA) = [js "run"; js "runIc"]
  /\ RenderTs.renderTsInterface scenarioA
     = join LF
         [ js "// Generated by scripts/generate-fgfdmexec-bindings.mjs.";
           js "// Do not edit manually.";
           [];
           js "export type OpaqueHandle = number;";
           [];
           js "export interface FGFDMExecApi {";
           js "  Run(): void;";
           js "  RunIC(): boolean;";
           js "}";
           [] ]
  /\ renderJsbsimApiClass localeCompare scenarioA emptyTypeMetadata
       DEFAULT_JSBSIM_API_IGNORE_METHODS
     = Ok (join LF
         [ js "// Generated by scripts/generate-fgfdmexec-bindings.mjs.";
           js "// Do not edit manually.";
           [];
           js "import type { FGFDMExecApi } from " ++ quoted (js "./fgfdmexec-api") ++ js ";";
           [];
           js "export class JSBSimApi {";
           js "  readonly exec: FGFDMExecApi;";
           [];
           js "  constructor(exec: FGFDMExecApi) {";
           js "    this.exec = exec;";
           js "  }";
           [];
           js "  run(): void {";
           js "    this.exec.Run();";
           js "  }";
           [];
           js "  runIc(): boolean {";
           js "    return this.exec.RunIC();";
           js "  }";
           [];
           js "}" ]).
Proof. split_and!; vm_compute; reflexivity. Qed.

(** C8 as stated.  The raw interface holds neither [run(): void] nor
    [runIC(): boolean], and the wrapper class has no method [runIC]. *)
Lemma scenarioA_names_differ :
  includes (js "run(): void") (RenderTs.renderTsInterface scenarioA) = false
  /\ includes (js "runIC(): boolean") (RenderTs.renderTsInterface scenarioA) = false
  /\ exists wrapper,
       renderJsbsimApiClass (fun _ _ => 0%Z) scenarioA emptyTypeMetadata
         DEFAULT_JSBSIM_API_IGNORE_METHODS = Ok wrapper
       /\ includes (js "runIC(") wrapper = false.
Proof.
  split; [by vm_compute|]. split; [by vm_compute|].
  eexists. split; [vm_compute; reflexivity|]. by vm_compute.
Qed.

Example scenarioE_throws :
  buildApiMethods scenarioE emptyTypeMetadata (list_to_set DEFAULT_JSBSIM_API_IGNORE_METHODS)
  = Throw (collisionMessage (js "Foo") (js "foo") (js "foo")).
Proof. vm_compute. reflexivity. Qed.

(** ** Parameter names *)

(** ** Rendering of numbers *)

Lemma js_inj s t : js s = js t -> s = t.
Proof.
  unfold js. intros H.
  rewrite <- (string_of_list_ascii_of_string s), <- (string_of_list_ascii_of_string t).
  f_equal. revert H.
  generalize (list_ascii_of_string s) (list_ascii_of_string t).
  induction l as [|a l IH]; intros [|b l']; simpl; intros H; try done.
  injection H as Hab Hl. f_equal; [|by apply IH].
  rewrite <- (ascii_N_embedding a), <- (ascii_N_embedding b). by rewrite Hab.
Qed.

Lemma showNat_inj n m : showNat n = showNat m -> n = m.
Proof.
  unfold showNat. intros H. apply js_inj in H.
  assert (Hu : Nat.to_uint n = Nat.to_uint m).
  { assert (Some (Nat.to_uint n) = Some (Nat.to_uint m)) as [= ->]; [|done].
    rewrite <- !NilEmpty.usu. by rewrite H. }
  rewrite <- (Unsigned.of_to n), <- (Unsigned.of_to m). by rewrite Hu.
Qed.

Lemma withSuffix_inj base j k : withSuffix base j = withSuffix base k -> j = k.
Proof.
  unfold withSuffix. intros H. apply app_inv_head in H.
  apply app_inv_head in H. by apply showNat_inj.
Qed.

Lemma withSuffix_ne_base base k : withSuffix base k <> base.
Proof.
  unfold withSuffix. intros H. apply (f_equal length) in H.
  rewrite !length_app in H. simpl in H. lia.
Qed.

(** ** The search for a free suffix *)

Lemma findFreeSuffix_spec (bound : nat) (usedNames : gset jsstring) (base : jsstring)
    (suffix : nat) :
  let r := findFreeSuffix bound usedNames base suffix in
  suffix <= r <= suffix + bound
  /\ (forall k, suffix <= k < r -> withSuffix base k ∈ usedNames)
  /\ (r < suffix + bound -> withSuffix base r ∉ usedNames).
Proof.
  revert suffix. induction bound as [|bound IH]; intros suffix; simpl.
  - split; [lia|]. split; intros; lia.
  - case_bool_decide as Hin.
    + destruct (IH (S suffix)) as (Hr & Hbelow & Hfree).
      split; [lia|]. split; [|intros; apply Hfree; lia].
      intros k Hk. destruct (decide (k = suffix)) as [->|]; [done|].
      apply Hbelow. lia.
    + split; [lia|]. split; [intros; lia | done].
Qed.

Lemma findFreeSuffix_free (usedNames : gset jsstring) (base : jsstring) :
  base ∈ usedNames ->
  withSuffix base (findFreeSuffix (size usedNames) usedNames base 1) ∉ usedNames.
Proof.
  intros Hbase.
  destruct (findFreeSuffix_spec (size usedNames) usedNames base 1) as (Hr & Hbelow & Hfree).
  set (r := findFreeSuffix (size usedNames) usedNames base 1) in *.
  destruct (decide (r < 1 + size usedNames)) as [Hlt|Hge]; [by apply Hfree|].
  exfalso.
  set (l := base :: map (withSuffix base) (seq 1 (size usedNames))).
  assert (Hnd : NoDup l).
  { apply NoDup_cons. split.
    - intros Hin. apply list_elem_of_In, in_map_iff in Hin as (k & Hk & _).
      by apply withSuffix_ne_base in Hk.
    - apply NoDup_ListNoDup, Finite.Injective_map_NoDup; [|apply seq_NoDup].
      intros j k. apply withSuffix_inj. }
  assert (Hsub : list_to_set (C:=gset jsstring) l ⊆ usedNames).
  { intros x Hx. apply elem_of_list_to_set in Hx.
    apply list_elem_of_In in Hx as [<-|Hx]; [done|].
    apply in_map_iff in Hx as (k & <- & Hk). apply in_seq in Hk.
    apply Hbelow. lia. }
  apply subseteq_size in Hsub.
  rewrite size_list_to_set in Hsub; [|done].
  unfold l in Hsub. simpl in Hsub. rewrite length_map, length_seq in Hsub. lia.
Qed.

Lemma uniqueName_spec (usedNames : gset jsstring) (base : jsstring) :
  (uniqueName usedNames base ∉ usedNames)
  /\ (base ∉ usedNames -> uniqueName usedNames base = base)
  /\ (base ∈ usedNames ->
        exists k, 1 <= k /\ uniqueName usedNames base = withSuffix base k
          /\ (forall j, 1 <= j < k -> withSuffix base j ∈ usedNames)
          /\ withSuffix base k ∉ usedNames).
Proof.
  unfold uniqueName. case_bool_decide as Hin.
  - pose proof (findFreeSuffix_free usedNames base Hin) as Hfree.
    destruct (findFreeSuffix_spec (size usedNames) usedNames base 1) as (Hr & Hbelow & _).
    split; [done|]. split; [done|]. intros _.
    exists (findFreeSuffix (size usedNames) usedNames base 1).
    split; [lia|]. split; [done|]. split; [done|done].
  - split; [done|]. split; [done|done].
Qed.

(** ** The loop *)

Lemma normalizeParamNames_loop_length (index : nat) (used : gset jsstring)
    (params : list Param) :
  length (normalizeParamNames_loop index used params) = length params.
Proof.
  revert index used. induction params as [|p params IH]; intros; simpl; auto.
Qed.

Lemma normalizeParamNames_loop_fields (index : nat) (used : gset jsstring)
    (params : list Param) :
  map p_type (normalizeParamNames_loop index used params) = map p_type params
  /\ map p_defaultValue (normalizeParamNames_loop index used params)
     = map p_defaultValue params.
Proof.
  revert index used. induction params as [|p params IH]; intros; simpl; [done|].
  destruct (IH (S index) ({[uniqueName used (baseName index p)]} ∪ used)) as [-> ->].
  done.
Qed.

Lemma normalizeParamNames_loop_fresh (index : nat) (used : gset jsstring)
    (params : list Param) :
  NoDup (map p_name (normalizeParamNames_loop index used params))
  /\ forall n, In n (map p_name (normalizeParamNames_loop index used params)) -> n ∉ used.
Proof.
  revert index used. induction params as [|p params IH]; intros index used; simpl.
  - split; [constructor|intros n []].
  - set (newName := uniqueName used (baseName index p)).
    destruct (IH (S index) ({[newName]} ∪ used)) as [Hnd Hfresh].
    split.
    + apply NoDup_cons. split; [|done].
      intros Hin. apply list_elem_of_In, Hfresh in Hin. set_solver.
    + intros n [<-|Hn].
      * apply uniqueName_spec.
      * apply Hfresh in Hn. set_solver.
Qed.

(** The names given to the parameters before position [i] are the names
    in use when the parameter at [i] is reached. *)
Lemma normalizeParamNames_loop_lookup (params : list Param) :
  forall (index : nat) (used : gset jsstring) (i : nat) (p q : Param),
  params !! i = Some p ->
  normalizeParamNames_loop index used params !! i = Some q ->
  q = setName p
        (uniqueName
           (list_to_set (take i (map p_name (normalizeParamNames_loop index used params)))
              ∪ used)
           (baseName (index + i) p)).
Proof.
  induction params as [|p0 params IH]; intros index used i p q Hp Hq; [done|].
  destruct i as [|i]; simpl in *.
  - injection Hp as ->. injection Hq as <-.
    rewrite Nat.add_0_r. f_equal. f_equal. set_solver.
  - rewrite (IH _ _ _ _ _ Hp Hq). f_equal.
    replace (index + S i) with (S index + i) by lia.
    f_equal. set_solver.
Qed.

Lemma baseName_alt index p :
  baseName index p
  = if isIdentifier (p_name p) then p_name p else js "arg" ++ showNat index.
Proof. unfold baseName. by destruct (p_name p). Qed.

(** C9.  [normalizeParamNames] returns a list of the same length, with
    the types and default values in the same order, whose names are
    pairwise distinct.  The name at an index is the raw name when that is
    an identifier and [arg<index>] otherwise, unless that name is already
    used by an earlier parameter of the result: then it gets the suffix
    [_k] for the least [k >= 1] that makes it unused. *)
Theorem normalizeParamNames_distinct (params : list Param) :
  let out := normalizeParamNames params in
  length out = length params
  /\ map p_type out = map p_type params
  /\ map p_defaultValue out = map p_defaultValue params
  /\ NoDup (map p_name out)
  /\ forall i p q, params !! i = Some p -> out !! i = Some q ->
       let usedNames := take i (map p_name out) in
       let base := if isIdentifier (p_name p) then p_name p
                   else js "arg" ++ showNat i in
       (base ∉ usedNames -> p_name q = base)
       /\ (base ∈ usedNames ->
             exists k, 1 <= k
               /\ p_name q = base ++ js "_" ++ showNat k
               /\ (forall j, 1 <= j < k -> base ++ js "_" ++ showNat j ∈ usedNames)
               /\ base ++ js "_" ++ showNat k ∉ usedNames).
Proof.
  intros out. unfold out, normalizeParamNames. split_and!.
  - apply normalizeParamNames_loop_length.
  - apply normalizeParamNames_loop_fields.
  - apply normalizeParamNames_loop_fields.
  - apply normalizeParamNames_loop_fresh.
  - intros i p q Hp Hq. cbv zeta.
    set (usedNames := take i (map p_name (normalizeParamNames_loop 0 ∅ params))).
    set (base := if isIdentifier (p_name p) then p_name p else js "arg" ++ showNat i).
    pose proof (normalizeParamNames_loop_lookup _ _ _ _ _ _ Hp Hq) as ->.
    simpl. rewrite baseName_alt. fold base. fold usedNames.
    destruct (uniqueName_spec (list_to_set usedNames ∪ ∅) base) as (_ & Hfree & Hused).
    split.
    + intros Hb. apply Hfree. set_solver.
    + intros Hb. destruct Hused as (k & Hk & Hq' & Hbelow & Hnot); [set_solver|].
      exists k. split_and!; [done|done| |set_solver].
      intros j Hj. specialize (Hbelow j Hj). set_solver.
Qed.
